(** * RTF (Register Target Framework): a shallow embedding of RTF.h

    The development follows the header: the register target interface
    [IRegisterTarget] with its default batch operations, [BasicPoller], the
    interposer interface, and the fluent wrapper [FluentRegisterTarget]
    whose operations report their life cycle to the interposer; [chunkify]
    is taken from the revision of the header that adds it, and the dummy
    target from RTF_SimpleDummyTarget.h.

    Conventions.
    - [AddressType] and [DataType] are unsigned integers of [aw] and [dw]
      bits, carried as [Z]; every implicit narrowing of the C++ code is
      written as [wrap].  [size_t] is 64 bits wide.
    - Effectful code is a state transformer returning an [Outcome]: a normal
      return, a thrown C++ exception, or a stop of the whole run (a failed
      [assert], an out-of-range span access, or the model's loop budget
      running out, which stands for a loop that is still spinning).
    - Spans are lists; a span or a variable handed to a callee by reference
      is part of the state the callee transforms.
    - Time is a component of the state, in microseconds, read by [now] and
      advanced by [sleep_for]; the poller is stated over any such state.
      The deadline of a poll is a sum of unbounded integers here; the code
      forms it in the 64-bit ticks of [steady_clock], so what is stated
      about elapsed time carries [deadline_fits] as a precondition, and
      [late_clock] is a clock whose sleeps may last longer than asked.
    - An interposer and a target are records of their virtual functions over
      a state of their own.  [observer] is the interposer that writes down
      the invocations it receives, [Recording] a target that writes down the
      accesses issued on it. *)

From Stdlib Require Import ZArith List String Ascii Lia HexadecimalString.
From stdpp Require Import base gmap strings list pretty.

Local Open Scope Z_scope.

(** ** Fixed-width integers *)

Definition wrap (w z : Z) : Z := z mod 2 ^ w.

Definition size_t_bits : Z := 64.

(** ** Outcomes and the state monad of the embedding *)

(** Dynamic class of a thrown object that derives from [std::exception]. *)
Inductive exn_class : Type :=
| UserException            (* any other class derived from std::exception *)
| WriteVerifyFailure
| ReadVerifyFailure
| PollReadTimeout.

(** A thrown value: either an object derived from [std::exception], of which
    the program can observe the class and [what()], or a value of any other
    type ([throw 42;]), which [catch (std::exception const&)] lets through. *)
Inductive thrown : Type :=
| StdExc (cls : exn_class) (what : string)
| NonStd (payload : Z).

Inductive stop : Type :=
| AssertionFailed      (* assert(...) failed: abort() *)
| OutOfRange           (* span indexed outside its extent *)
| OutOfFuel.           (* the loop budget of the model is exhausted *)

Inductive Outcome (A : Type) : Type :=
| Returned (a : A)
| Thrown (e : thrown)
| Stopped (why : stop).
Arguments Returned {A} a.
Arguments Thrown {A} e.
Arguments Stopped {A} why.

Definition M (Σ A : Type) : Type := Σ -> Outcome A * Σ.

Definition ret {Σ A} (a : A) : M Σ A := fun s => (Returned a, s).

Definition bind {Σ A B} (m : M Σ A) (k : A -> M Σ B) : M Σ B :=
  fun s =>
    match m s with
    | (Returned a, s') => k a s'
    | (Thrown e, s') => (Thrown e, s')
    | (Stopped why, s') => (Stopped why, s')
    end.

Definition throw {Σ A} (e : thrown) : M Σ A := fun s => (Thrown e, s).
Definition halt {Σ A} (why : stop) : M Σ A := fun s => (Stopped why, s).
Definition modify {Σ} (f : Σ -> Σ) : M Σ unit := fun s => (Returned tt, f s).
Definition gets {Σ A} (f : Σ -> A) : M Σ A := fun s => (Returned (f s), s).

Declare Scope rtf_scope.
Delimit Scope rtf_scope with rtf.
Notation "x <- c ;; k" := (bind c (fun x => k))
  (at level 100, c at next level, right associativity) : rtf_scope.
Notation "c ;; k" := (bind c (fun _ => k))
  (at level 100, right associativity) : rtf_scope.
Local Open Scope rtf_scope.

(** [try { body } catch (std::exception const& ex) { handler(ex) }]:
    only objects derived from [std::exception] are caught. *)
Definition try_catch_std {Σ A} (body : M Σ A)
    (handler : exn_class -> string -> M Σ A) : M Σ A :=
  fun s =>
    match body s with
    | (Thrown (StdExc cls what), s') => handler cls what s'
    | r => r
    end.

(** Run a computation on a component of a larger state. *)
Definition zoom {Σ σ A} (get : Σ -> σ) (set : σ -> Σ -> Σ) (m : M σ A) : M Σ A :=
  fun s => let (r, x) := m (get s) in (r, set x s).

(** [for (size_t i = from; i < from + count; i++) body(i);] *)
Fixpoint for_from {Σ} (from : nat) (count : nat) (body : nat -> M Σ unit) : M Σ unit :=
  match count with
  | O => ret tt
  | S count' => body from ;; for_from (S from) count' body
  end.

(** [for (auto const x : xs) body(x);] *)
Fixpoint for_each {Σ A} (xs : list A) (body : A -> M Σ unit) : M Σ unit :=
  match xs with
  | [] => ret tt
  | x :: xs' => body x ;; for_each xs' body
  end.

(** ** chunkify *)

(** [std::span::subspan(pos, count)] for [pos + count <= size]. *)
Definition subspan {T} (buffer : list T) (pos count : nat) : list T :=
  take count (drop pos buffer).

(** The loop of [chunkify]; it has no bound of its own, so the model counts
    iterations down from [fuel] and stops with [OutOfFuel] when the loop is
    still running after [fuel] tests of its condition.  The positions are
    [size_t] values that never exceed [buffer.size()], so no arithmetic
    wraps. *)
Fixpoint chunkify_loop {T Σ} (fuel : nat) (buffer : list T) (max_chunk_size : nat)
    (fn : list T -> nat -> M Σ unit) (pos : nat) : M Σ unit :=
  match fuel with
  | O => halt OutOfFuel
  | S fuel' =>
      if (pos <? length buffer)%nat then
        let chunk_size := Nat.min max_chunk_size (length buffer - pos) in
        let chunk := subspan buffer pos chunk_size in
        fn chunk pos ;;
        chunkify_loop fuel' buffer max_chunk_size fn (pos + chunk_size)
      else ret tt
  end.

Definition chunkify {T Σ} (fuel : nat) (buffer : list T) (max_chunk_size : nat)
    (fn : list T -> nat -> M Σ unit) : M Σ unit :=
  chunkify_loop fuel buffer max_chunk_size fn 0.

(** A callback that appends each call [(chunk, offset)] to a log. *)
Definition record_chunk {T} (chunk : list T) (offset : nat)
    : M (list (list T * nat)) unit :=
  modify (fun log => log ++ [(chunk, offset)]).

(** The offsets of consecutive chunks: the first is [p], each next one is the
    previous offset plus the previous chunk's length. *)
Fixpoint contiguous_from {T} (p : nat) (cs : list (list T * nat)) : Prop :=
  match cs with
  | [] => True
  | (c, off) :: rest => off = p /\ contiguous_from (p + length c) rest
  end.

(** Every chunk but the last has exactly [n] elements. *)
Definition all_but_last_full {T} (n : nat) (cs : list (list T * nat)) : Prop :=
  forall i c off, (S i < length cs)%nat -> cs !! i = Some (c, off) -> length c = n.

Definition strictly_increasing (offs : list nat) : Prop :=
  forall i a b, offs !! i = Some a -> offs !! (S i) = Some b -> (a < b)%nat.

(** What the chunking is said to deliver for [buffer] and [max_chunk_size]:
    the call returns after finitely many iterations, having passed to the
    callback chunks that concatenate to [buffer], each of at most the chunk
    size and all but the last of exactly that size, at offsets that start
    at 0, are contiguous and strictly increase. *)
Definition chunking_contract {T} (buffer : list T) (max_chunk_size : nat) : Prop :=
  exists fuel cs,
    chunkify fuel buffer max_chunk_size record_chunk [] = (Returned tt, cs) /\
    concat (map fst cs) = buffer /\
    Forall (fun c => (length (fst c) <= max_chunk_size)%nat) cs /\
    all_but_last_full max_chunk_size cs /\
    contiguous_from 0 cs /\
    strictly_increasing (map snd cs).

(** ** Text formatting used for exception messages and interposer payloads *)

Fixpoint zero_pad (n : nat) (s : string) : string :=
  match n with
  | O => s
  | S n' => String "0"%char (zero_pad n' s)
  end.

(** [std::format("0x{:0{}x}", v, sizeof(T) * 2)] for a [bits]-wide [T]:
    lower-case hexadecimal, padded with zeros to [bits / 4] digits. *)
Definition fmt_hex (bits v : Z) : string :=
  let digits := HexadecimalString.NilZero.string_of_uint (N.to_hex_uint (Z.to_N v)) in
  "0x" +:+ zero_pad (Z.to_nat (bits / 4) - String.length digits) digits.

(** [std::format("{}", n)] for a [size_t]. *)
Definition fmt_dec (n : Z) : string := pretty n.

(** [std::format("{}", d)] for a [std::chrono::microseconds]. *)
Definition fmt_us (d : Z) : string := pretty d +:+ "us".

(** The three exception classes of the header, all derived from
    [std::runtime_error]; the object keeps the formatted message only. *)
Definition verify_message (prefix : string) (dw expected mask full_actual : Z) : string :=
  prefix +:+ " Expected:" +:+ fmt_hex dw expected
         +:+ " Got:" +:+ fmt_hex dw (Z.land full_actual mask)
         +:+ " (" +:+ fmt_hex dw full_actual +:+ ")".

Definition WriteVerifyFailureException (dw expected mask full_actual : Z) : thrown :=
  StdExc WriteVerifyFailure (verify_message "WriteVerify mismatch!" dw expected mask full_actual).
Definition ReadVerifyFailureException (dw expected mask full_actual : Z) : thrown :=
  StdExc ReadVerifyFailure (verify_message "ReadVerify mismatch!" dw expected mask full_actual).
Definition PollReadTimeoutException (dw expected mask full_actual : Z) : thrown :=
  StdExc PollReadTimeout (verify_message "PollRead timeout!" dw expected mask full_actual).

(** ** Register targets *)

(** An object whose class derives from [IRegisterTarget<AddressType, DataType>]:
    its virtual functions as they stand after overriding, acting on the
    object's own state [St].  The read operations that fill a caller's span
    transform the pair of that span and the object's state. *)
Module Target.
Record t (St : Type) : Type := Build {
  getName : string;
  getDomain : string;
  write : Z -> Z -> M St unit;
  read : Z -> M St Z;
  readModifyWrite : Z -> Z -> Z -> M St unit;
  seqWrite : Z -> list Z -> Z -> M St unit;
  seqRead : Z -> Z -> M (list Z * St) unit;
  fifoWrite : Z -> list Z -> M St unit;
  fifoRead : Z -> M (list Z * St) unit;
  compWrite : list (Z * Z) -> M St unit;
  compRead : list Z -> M (list Z * St) unit
}.
Arguments Build {St}.
Arguments getName {St}.
Arguments getDomain {St}.
Arguments write {St}.
Arguments read {St}.
Arguments readModifyWrite {St}.
Arguments seqWrite {St}.
Arguments seqRead {St}.
Arguments fifoWrite {St}.
Arguments fifoRead {St}.
Arguments compWrite {St}.
Arguments compRead {St}.
End Target.

(** A primitive access of a target, for logs of what was issued. *)
Inductive Access : Type :=
| AWrite (addr data : Z)
| ARead (addr : Z).

(** Run a computation on the second component of a pair: the first holds
    what the caller keeps next to it (a span, a local variable, a log). *)
Definition beside {X Σ A} (m : M Σ A) : M (X * Σ) A :=
  zoom snd (fun x s => (fst s, x)) m.

(** [out_data[i] = v;] *)
Definition span_store {St} (i : nat) (v : Z) : M (list Z * St) unit :=
  fun s =>
    if (i <? length (fst s))%nat
    then (Returned tt, (<[i := v]> (fst s), snd s))
    else (Stopped OutOfRange, s).

(** The bodies the base class [IRegisterTarget] gives its virtual functions,
    in terms of the two pure virtual ones. *)
Module IRegisterTarget.
Definition getName : string := "<unknown>".
Definition getDomain : string := "IRegisterTarget".

Section Base.
Context {St : Type}.
Variables aw dw : Z.              (* widths of AddressType and DataType *)
Variable ndebug : bool.           (* NDEBUG defined: assert expands to nothing *)
Variable write : Z -> Z -> M St unit.
Variable read : Z -> M St Z.

Definition readModifyWrite (addr new_data mask : Z) : M St unit :=
  v <- read addr ;;
  let v := wrap dw (Z.land v (Z.lnot mask)) in
  let v := wrap dw (Z.lor v (Z.land new_data mask)) in
  write addr v.

(** [start_addr + (increment * i)], computed in [size_t] and narrowed to
    [AddressType] when passed on. *)
Definition seq_address (start_addr increment : Z) (i : nat) : Z :=
  wrap aw (wrap size_t_bits (start_addr + wrap size_t_bits (increment * Z.of_nat i))).

Definition seqWrite (start_addr : Z) (data : list Z) (increment : Z) : M St unit :=
  for_from 0 (length data) (fun i =>
    write (seq_address start_addr increment i) (nth i data 0)).

Definition seqRead (start_addr increment : Z) : M (list Z * St) unit :=
  fun s =>
    for_from 0 (length (fst s)) (fun i =>
      v <- beside (read (seq_address start_addr increment i)) ;;
      span_store i v) s.

Definition fifoWrite (fifo_addr : Z) (data : list Z) : M St unit :=
  for_each data (fun d => write fifo_addr d).

Definition fifoRead (fifo_addr : Z) : M (list Z * St) unit :=
  fun s =>
    for_from 0 (length (fst s)) (fun i =>
      v <- beside (read fifo_addr) ;;
      span_store i v) s.

Definition compWrite (addr_data : list (Z * Z)) : M St unit :=
  for_each addr_data (fun ad => write (fst ad) (snd ad)).

Definition compRead (addresses : list Z) : M (list Z * St) unit :=
  fun s =>
    if negb ndebug && negb (length addresses =? length (fst s))%nat
    then (Stopped AssertionFailed, s)
    else
      for_from 0 (length addresses) (fun i =>
        v <- beside (read (nth i addresses 0)) ;;
        span_store i v) s.

(** A class that overrides [getName], [getDomain], [write] and [read]
    and inherits the rest. *)
Definition derive (name domain : string) : Target.t St :=
  Target.Build name domain write read
    readModifyWrite seqWrite seqRead fifoWrite fifoRead compWrite compRead.
End Base.
End IRegisterTarget.

(** [SimpleDummyRegisterTarget]: registers kept in an
    [std::unordered_map<AddressType, DataType>].  [regs[addr]] in [read]
    value-initialises a missing entry.  Its [getDomain] is a static member
    without [const], which hides but does not override the virtual
    function, so through the interface the base class's answer shows. *)
Module SimpleDummyRegisterTarget.
Definition write (addr data : Z) : M (gmap Z Z) unit :=
  modify (fun regs => <[addr := data]> regs).

Definition read (addr : Z) : M (gmap Z Z) Z :=
  fun regs =>
    match regs !! addr with
    | Some rv => (Returned rv, regs)
    | None => (Returned 0, <[addr := 0]> regs)
    end.

Definition make (aw dw : Z) (ndebug : bool) (name : string) : Target.t (gmap Z Z) :=
  IRegisterTarget.derive aw dw ndebug write read name IRegisterTarget.getDomain.
End SimpleDummyRegisterTarget.

(** A target that keeps a log of the primitive accesses issued on it: the
    given [write] and [read] with every call recorded first, the batch
    operations inherited from the base class. *)
Module Recording.
Section Recording.
Context {St : Type}.
Variable write : Z -> Z -> M St unit.
Variable read : Z -> M St Z.

Definition note (a : Access) : M (list Access * St) unit :=
  modify (fun s => (fst s ++ [a], snd s)).

Definition rwrite (addr data : Z) : M (list Access * St) unit :=
  note (AWrite addr data) ;; beside (write addr data).
Definition rread (addr : Z) : M (list Access * St) Z :=
  note (ARead addr) ;; beside (read addr).

Definition make (aw dw : Z) (ndebug : bool) (name domain : string)
    : Target.t (list Access * St) :=
  IRegisterTarget.derive aw dw ndebug rwrite rread name domain.
End Recording.
End Recording.

(** ** Time and pollers *)

(** A state in which time passes: [std::chrono::steady_clock::now()] and
    [std::this_thread::sleep_for(d)], in microseconds. *)
Class Clock (Σ : Type) : Type := {
  now : Σ -> Z;
  sleep_for : Z -> Σ -> Σ
}.

(** Local variables captured by reference live next to the state. *)
#[export] Instance clock_with_local {L Σ} `{Clock Σ} : Clock (L * Σ) := {|
  now s := now (snd s);
  sleep_for d s := (fst s, sleep_for d (snd s))
|}.

(** A predicate that writes down, at each evaluation, its outcome and the
    time at which the evaluation ended. *)
Definition traced {Σ} `{Clock Σ} (fn : M Σ bool) : M (list (Outcome bool * Z) * Σ) bool :=
  fun s => let (r, s') := fn (snd s) in (r, (fst s ++ [(r, now s')], s')).

Module BasicPoller.
Record t : Type := Build {
  initial_delay : Z;
  wait_delay : Z;
  timeout : Z
}.

Section Call.
Context {Σ : Type} `{Clock Σ}.
Variable this : t.

(** The [do { ... } while (now() < start_timestamp + timeout)] loop; one
    unit of [fuel] per evaluation of the predicate. *)
Fixpoint poll (fuel : nat) (start_timestamp : Z) (fn : M Σ bool) : M Σ bool :=
  match fuel with
  | O => halt OutOfFuel
  | S fuel' =>
      b <- fn ;;
      if (b : bool) then ret true
      else
        modify (sleep_for (wait_delay this)) ;;
        t <- gets now ;;
        if t <? start_timestamp + timeout this
        then poll fuel' start_timestamp fn
        else ret false
  end.

(** [operator()] *)
Definition call (fuel : nat) (fn : M Σ bool) : M Σ bool :=
  modify (sleep_for (initial_delay this)) ;;
  start_timestamp <- gets now ;;
  poll fuel start_timestamp fn.
End Call.
End BasicPoller.

(** [RTF_DEFAULT_POLLER_*]: 0 s, 500 us, 3 s. *)
Definition default_poller : BasicPoller.t := BasicPoller.Build 0 500 3000000.

(** ** The interposer *)

Module IFluentRegisterTargetInterposer.
(** The six pure virtual hooks, acting on the interposer's own state. *)
Record t (I : Type) : Type := Build {
  seq : string -> string -> string -> I -> I;
  step : string -> string -> string -> I -> I;
  opStart : string -> string -> string -> I -> I;
  opExtra : string -> string -> string -> I -> I;
  opEnd : string -> string -> I -> I;
  opError : string -> string -> string -> I -> I
}.
Arguments Build {I}.
Arguments seq {I}.
Arguments step {I}.
Arguments opStart {I}.
Arguments opExtra {I}.
Arguments opEnd {I}.
Arguments opError {I}.
End IFluentRegisterTargetInterposer.

(** One hook invocation with its arguments. *)
Inductive Event : Type :=
| EvSeq (target_domain target_instance msg : string)
| EvStep (target_domain target_instance msg : string)
| EvOpStart (target_domain target_instance op_msg : string)
| EvOpExtra (target_domain target_instance values : string)
| EvOpEnd (target_domain target_instance : string)
| EvOpError (target_domain target_instance msg : string).

Definition event_domain (e : Event) : string :=
  match e with
  | EvSeq d _ _ | EvStep d _ _ | EvOpStart d _ _ | EvOpExtra d _ _
  | EvOpEnd d _ | EvOpError d _ _ => d
  end.

Definition event_instance (e : Event) : string :=
  match e with
  | EvSeq _ i _ | EvStep _ i _ | EvOpStart _ i _ | EvOpExtra _ i _
  | EvOpEnd _ i | EvOpError _ i _ => i
  end.

Definition is_start (e : Event) : bool := match e with EvOpStart _ _ _ => true | _ => false end.
Definition is_extra (e : Event) : bool := match e with EvOpExtra _ _ _ => true | _ => false end.
Definition is_end (e : Event) : bool := match e with EvOpEnd _ _ => true | _ => false end.
Definition is_error (e : Event) : bool := match e with EvOpError _ _ _ => true | _ => false end.

(** An interposer that writes down every invocation it receives, in order. *)
Definition observer : IFluentRegisterTargetInterposer.t (list Event) :=
  IFluentRegisterTargetInterposer.Build
    (fun d i m log => log ++ [EvSeq d i m])
    (fun d i m log => log ++ [EvStep d i m])
    (fun d i m log => log ++ [EvOpStart d i m])
    (fun d i m log => log ++ [EvOpExtra d i m])
    (fun d i log => log ++ [EvOpEnd d i])
    (fun d i m log => log ++ [EvOpError d i m]).

(** ** The fluent wrapper *)

(** What the target and a poller act on: the state of the target and the
    time. *)
Record Env (St : Type) : Type := MkEnv {
  tgt : St;
  clock : Z
}.
Arguments MkEnv {St}.
Arguments tgt {St}.
Arguments clock {St}.

(** What an operation of the wrapper runs in: the state of the interposer
    next to that. *)
Record World (I St : Type) : Type := MkWorld {
  ipos : I;
  env : Env St
}.
Arguments MkWorld {I St}.
Arguments ipos {I St}.
Arguments env {I St}.

(** [sleep_for] returns at once for a duration that is not positive. *)
#[export] Instance clock_env {St} : Clock (Env St) := {|
  now e := clock e;
  sleep_for d e := MkEnv (tgt e) (clock e + Z.max 0 d)
|}.

(** A callable satisfying [CPoller], as [pollRead] uses it: it is handed the
    check functor, which works on the captured [reg_val], the target and the
    time. *)
Definition CPoller (St : Type) : Type :=
  M (Z * Env St) bool -> M (Z * Env St) bool.

(** A local variable [init]ialised before [m] runs and read after it. *)
Definition with_local {L Σ A} (init : L) (m : M (L * Σ) A) : M Σ (A * L) :=
  fun s =>
    let (r, s') := m (init, s) in
    (match r with
     | Returned a => Returned (a, fst s')
     | Thrown e => Thrown e
     | Stopped why => Stopped why
     end, snd s').

Module FluentRegisterTarget.
Section Fluent.
Context {I St : Type}.
Variables aw dw : Z.              (* widths of AddressType and DataType *)
(** The two data members; [None] is the null interposer pointer. *)
Variable interposer : option (IFluentRegisterTargetInterposer.t I).
Variable target : Target.t St.

Local Abbreviation W := (World I St).
Local Abbreviation TI := IFluentRegisterTargetInterposer.t.

(** [if (this->interposer) { this->interposer->hook(...); }] *)
Definition invoke (hook : TI I -> I -> I) : M W unit :=
  match interposer with
  | Some ip => modify (fun w => MkWorld (hook ip (ipos w)) (env w))
  | None => ret tt
  end.

(** [this->target->...] on the target's state, and on a caller's span
    together with it. *)
Definition on_tgt {A} (m : M St A) : M W A :=
  zoom (fun w => tgt (env w))
       (fun x w => MkWorld (ipos w) (MkEnv x (clock (env w)))) m.
Definition on_env {A} (m : M (Env St) A) : M W A :=
  zoom env (fun x w => MkWorld (ipos w) x) m.
Definition on_span_tgt {A} (m : M (list Z * St) A) : M (list Z * W) A :=
  zoom (fun s => (fst s, tgt (env (snd s))))
       (fun x s => (fst x, MkWorld (ipos (snd s)) (MkEnv (snd x) (clock (env (snd s))))))
       m.

Definition opStart (msg : string) : M W unit :=
  invoke (fun ip =>
    IFluentRegisterTargetInterposer.opStart ip "FluentRegisterTarget" (Target.getName target) msg).

Definition opExtra (data : Z) : M W unit :=
  invoke (fun ip =>
    IFluentRegisterTargetInterposer.opExtra ip "FluentRegisterTarget" (Target.getName target)
      (fmt_hex dw data)).

Definition opExtra_span (data : list Z) : M W unit :=
  match interposer with
  | Some ip =>
      for_each data (fun d =>
        modify (fun w => MkWorld
          (IFluentRegisterTargetInterposer.opExtra ip "FluentRegisterTarget"
             (Target.getName target) (fmt_hex dw d) (ipos w)) (env w)))
  | None => ret tt
  end.

Definition opExtra_addresses (addresses : list Z) : M W unit :=
  match interposer with
  | Some ip =>
      for_each addresses (fun a =>
        modify (fun w => MkWorld
          (IFluentRegisterTargetInterposer.opExtra ip "FluentRegisterTarget"
             (Target.getName target) (fmt_hex aw a) (ipos w)) (env w)))
  | None => ret tt
  end.

Definition opExtra_pairs (addr_data : list (Z * Z)) : M W unit :=
  match interposer with
  | Some ip =>
      for_each addr_data (fun ad =>
        modify (fun w => MkWorld
          (IFluentRegisterTargetInterposer.opExtra ip "FluentRegisterTarget"
             (Target.getName target)
             (fmt_hex aw (fst ad) +:+ " " +:+ fmt_hex dw (snd ad)) (ipos w)) (env w)))
  | None => ret tt
  end.

Definition opEnd : M W unit :=
  invoke (fun ip =>
    IFluentRegisterTargetInterposer.opEnd ip "FluentRegisterTarget" (Target.getName target)).

Definition opError (msg : string) : M W unit :=
  invoke (fun ip =>
    IFluentRegisterTargetInterposer.opError ip "FluentRegisterTarget" (Target.getName target) msg).

(** [catch (std::exception const& ex) { this->opError(ex.what()); throw; }] *)
Definition report {A} (cls : exn_class) (what : string) : M W A :=
  opError what ;; throw (StdExc cls what).
Definition report_beside {X A} (cls : exn_class) (what : string) : M (X * W) A :=
  beside (opError what) ;; throw (StdExc cls what).

Definition seq (msg : string) : M W unit :=
  invoke (fun ip =>
    IFluentRegisterTargetInterposer.seq ip "FluentRegisterTarget" (Target.getName target) msg).

Definition step (msg : string) : M W unit :=
  invoke (fun ip =>
    IFluentRegisterTargetInterposer.step ip "FluentRegisterTarget" (Target.getName target) msg).

Definition null (msg : string) : M W unit :=
  opStart ("Null(): " +:+ msg) ;;
  opEnd.

Definition delay (delay : Z) (msg : string) : M W unit :=
  opStart ("Delay(" +:+ fmt_us delay +:+ "): " +:+ msg) ;;
  on_env (modify (sleep_for delay)) ;;
  opEnd.

Definition write (addr data : Z) (msg : string) : M W unit :=
  opStart ("Write(" +:+ fmt_hex aw addr +:+ ", " +:+ fmt_hex dw data +:+ "): " +:+ msg) ;;
  try_catch_std (on_tgt (Target.write target addr data)) report ;;
  opEnd.

(** [out_data] is the caller's variable, passed by reference. *)
Definition read (addr : Z) (msg : string) : M (Z * W) unit :=
  beside (opStart ("Read(" +:+ fmt_hex aw addr +:+ "): " +:+ msg)) ;;
  try_catch_std
    (v <- beside (on_tgt (Target.read target addr)) ;;
     modify (fun s => (v, snd s)))
    report_beside ;;
  out_data <- gets fst ;;
  beside (opExtra out_data) ;;
  beside opEnd.

Definition readModifyWrite (addr new_data mask : Z) (msg : string) : M W unit :=
  opStart ("ReadModifyWrite(" +:+ fmt_hex aw addr +:+ ", " +:+ fmt_hex dw (Z.land new_data mask)
             +:+ ", " +:+ fmt_hex dw mask +:+ "): " +:+ msg) ;;
  try_catch_std (on_tgt (Target.readModifyWrite target addr new_data mask)) report ;;
  opEnd.

Definition seqWrite (start_addr : Z) (data : list Z) (increment : Z) (msg : string) : M W unit :=
  opStart ("SeqWrite(" +:+ fmt_hex aw start_addr +:+ ", " +:+ fmt_dec (Z.of_nat (length data))
             +:+ ".., " +:+ fmt_dec increment +:+ "): " +:+ msg) ;;
  opExtra_span data ;;
  try_catch_std (on_tgt (Target.seqWrite target start_addr data increment)) report ;;
  opEnd.

(** [out_data] is the caller's span. *)
Definition seqRead (start_addr increment : Z) (msg : string) : M (list Z * W) unit :=
  size <- gets (fun s => length (fst s)) ;;
  beside (opStart ("SeqRead(" +:+ fmt_hex aw start_addr +:+ ", " +:+ fmt_dec (Z.of_nat size)
                     +:+ ".., " +:+ fmt_dec increment +:+ "): " +:+ msg)) ;;
  try_catch_std (on_span_tgt (Target.seqRead target start_addr increment)) report_beside ;;
  out_data <- gets fst ;;
  beside (opExtra_span out_data) ;;
  beside opEnd.

Definition fifoWrite (fifo_addr : Z) (data : list Z) (msg : string) : M W unit :=
  opStart ("FifoWrite(" +:+ fmt_hex aw fifo_addr +:+ ", " +:+ fmt_dec (Z.of_nat (length data))
             +:+ "..): " +:+ msg) ;;
  opExtra_span data ;;
  try_catch_std (on_tgt (Target.fifoWrite target fifo_addr data)) report ;;
  opEnd.

Definition fifoRead (fifo_addr : Z) (msg : string) : M (list Z * W) unit :=
  size <- gets (fun s => length (fst s)) ;;
  beside (opStart ("FifoRead(" +:+ fmt_hex aw fifo_addr +:+ ", " +:+ fmt_dec (Z.of_nat size)
                     +:+ "): " +:+ msg)) ;;
  try_catch_std (on_span_tgt (Target.fifoRead target fifo_addr)) report_beside ;;
  out_data <- gets fst ;;
  beside (opExtra_span out_data) ;;
  beside opEnd.

Definition compWrite (addr_data : list (Z * Z)) (msg : string) : M W unit :=
  opStart ("CompWrite(" +:+ fmt_dec (Z.of_nat (length addr_data)) +:+ "..): " +:+ msg) ;;
  opExtra_pairs addr_data ;;
  try_catch_std (on_tgt (Target.compWrite target addr_data)) report ;;
  opEnd.

Definition compRead (addresses : list Z) (msg : string) : M (list Z * W) unit :=
  size <- gets (fun s => length (fst s)) ;;
  beside (opStart ("CompRead(" +:+ fmt_dec (Z.of_nat (length addresses)) +:+ ".., "
                     +:+ fmt_dec (Z.of_nat size) +:+ "..): " +:+ msg)) ;;
  beside (opExtra_addresses addresses) ;;
  try_catch_std (on_span_tgt (Target.compRead target addresses)) report_beside ;;
  out_data <- gets fst ;;
  beside (opExtra_span out_data) ;;
  beside opEnd.

Definition writeVerify (addr data mask : Z) (msg : string) : M W unit :=
  opStart ("WriteVerify(" +:+ fmt_hex aw addr +:+ ", " +:+ fmt_hex dw data +:+ ", "
             +:+ fmt_hex dw mask +:+ "): " +:+ msg) ;;
  try_catch_std
    (on_tgt (Target.write target addr data) ;;
     reg_val <- on_tgt (Target.read target addr) ;;
     let expected_val := Z.land data mask in
     if negb (Z.land reg_val mask =? expected_val)
     then throw (WriteVerifyFailureException dw expected_val mask reg_val)
     else ret tt)
    report ;;
  opEnd.

Definition readVerify (addr expected mask : Z) (msg : string) : M W unit :=
  opStart ("ReadVerify(" +:+ fmt_hex aw addr +:+ ", " +:+ fmt_hex dw expected +:+ ", "
             +:+ fmt_hex dw mask +:+ "): " +:+ msg) ;;
  try_catch_std
    (reg_val <- on_tgt (Target.read target addr) ;;
     let expected_val := Z.land expected mask in
     if negb (Z.land reg_val mask =? expected_val)
     then throw (ReadVerifyFailureException dw expected_val mask reg_val)
     else ret tt)
    report ;;
  opEnd.

(** The check functor of [pollRead]:
    [[&] { reg_val = this->target->read(addr); return (reg_val & mask) == expected_val; }] *)
Definition poll_check (addr mask expected_val : Z) : M (Z * Env St) bool :=
  v <- beside (zoom tgt (fun x e => MkEnv x (clock e)) (Target.read target addr)) ;;
  modify (fun s => (v, snd s)) ;;
  ret (Z.land v mask =? expected_val).

Definition pollRead (poller : CPoller St) (addr expected mask : Z) (msg : string) : M W unit :=
  opStart ("PollRead(" +:+ fmt_hex aw addr +:+ ", " +:+ fmt_hex dw expected +:+ ", "
             +:+ fmt_hex dw mask +:+ "): " +:+ msg) ;;
  try_catch_std
    (let expected_val := Z.land expected mask in
     r <- on_env (with_local 0 (poller (poll_check addr mask expected_val))) ;;
     let success := fst r in
     let reg_val := snd r in
     if negb success
     then throw (PollReadTimeoutException dw expected_val mask reg_val)
     else ret tt)
    report ;;
  opEnd.

(** The overload without a poller uses [default_poller]. *)
Definition pollRead_default (fuel : nat) (addr expected mask : Z) (msg : string) : M W unit :=
  pollRead (BasicPoller.call default_poller fuel) addr expected mask msg.

(** The overloads that return what was read instead of filling an out
    parameter.  [DataType out_data;] starts out indeterminate: [uninit];
    [rv.resize(n)] makes [n] zeros. *)
Definition read_value (uninit : Z) (addr : Z) (msg : string) : M W Z :=
  r <- with_local uninit (read addr msg) ;;
  ret (snd r).

Definition seqRead_count (start_addr : Z) (count : nat) (increment : Z) (msg : string)
    : M W (list Z) :=
  r <- with_local (replicate count 0) (seqRead start_addr increment msg) ;;
  ret (snd r).

Definition fifoRead_count (fifo_addr : Z) (count : nat) (msg : string) : M W (list Z) :=
  r <- with_local (replicate count 0) (fifoRead fifo_addr msg) ;;
  ret (snd r).

Definition compRead_values (addresses : list Z) (msg : string) : M W (list Z) :=
  r <- with_local (replicate (length addresses) 0) (compRead addresses msg) ;;
  ret (snd r).
End Fluent.
End FluentRegisterTarget.

(** ** An application calling the wrapper *)

(** The variables the caller passes by reference. *)
Record Caller : Type := MkCaller {
  out_data : Z;
  out_span : list Z
}.

(** The fourteen operations that follow the life-cycle protocol, with their
    arguments. *)
Inductive Operation (St : Type) : Type :=
| OpNull
| OpDelay (delay : Z)
| OpWrite (addr data : Z)
| OpRead (addr : Z)
| OpReadModifyWrite (addr new_data mask : Z)
| OpSeqWrite (start_addr : Z) (data : list Z) (increment : Z)
| OpSeqRead (start_addr increment : Z)
| OpFifoWrite (fifo_addr : Z) (data : list Z)
| OpFifoRead (fifo_addr : Z)
| OpCompWrite (addr_data : list (Z * Z))
| OpCompRead (addresses : list Z)
| OpWriteVerify (addr data mask : Z)
| OpReadVerify (addr expected mask : Z)
| OpPollRead (poller : CPoller St) (addr expected mask : Z).
Arguments OpNull {St}.
Arguments OpDelay {St}.
Arguments OpWrite {St}.
Arguments OpRead {St}.
Arguments OpReadModifyWrite {St}.
Arguments OpSeqWrite {St}.
Arguments OpSeqRead {St}.
Arguments OpFifoWrite {St}.
Arguments OpFifoRead {St}.
Arguments OpCompWrite {St}.
Arguments OpCompRead {St}.
Arguments OpWriteVerify {St}.
Arguments OpReadVerify {St}.
Arguments OpPollRead {St}.

Definition with_out_data {Σ A} (m : M (Z * Σ) A) : M (Caller * Σ) A :=
  zoom (fun s => (out_data (fst s), snd s))
       (fun x s => (MkCaller (fst x) (out_span (fst s)), snd x)) m.

Definition with_out_span {Σ A} (m : M (list Z * Σ) A) : M (Caller * Σ) A :=
  zoom (fun s => (out_span (fst s), snd s))
       (fun x s => (MkCaller (out_data (fst s)) (fst x), snd x)) m.

(** The call [fluent.op(args..., msg)] made with the caller's variables. *)
Definition perform {I St} (aw dw : Z)
    (interposer : option (IFluentRegisterTargetInterposer.t I))
    (target : Target.t St) (o : Operation St) (msg : string)
    : M (Caller * World I St) unit :=
  match o with
  | OpNull => beside (FluentRegisterTarget.null interposer target msg)
  | OpDelay d => beside (FluentRegisterTarget.delay interposer target d msg)
  | OpWrite a d => beside (FluentRegisterTarget.write aw dw interposer target a d msg)
  | OpRead a => with_out_data (FluentRegisterTarget.read aw dw interposer target a msg)
  | OpReadModifyWrite a d m =>
      beside (FluentRegisterTarget.readModifyWrite aw dw interposer target a d m msg)
  | OpSeqWrite a ds inc =>
      beside (FluentRegisterTarget.seqWrite aw dw interposer target a ds inc msg)
  | OpSeqRead a inc =>
      with_out_span (FluentRegisterTarget.seqRead aw dw interposer target a inc msg)
  | OpFifoWrite a ds => beside (FluentRegisterTarget.fifoWrite aw dw interposer target a ds msg)
  | OpFifoRead a => with_out_span (FluentRegisterTarget.fifoRead aw dw interposer target a msg)
  | OpCompWrite ads => beside (FluentRegisterTarget.compWrite aw dw interposer target ads msg)
  | OpCompRead addrs =>
      with_out_span (FluentRegisterTarget.compRead aw dw interposer target addrs msg)
  | OpWriteVerify a d m =>
      beside (FluentRegisterTarget.writeVerify aw dw interposer target a d m msg)
  | OpReadVerify a e m =>
      beside (FluentRegisterTarget.readVerify aw dw interposer target a e m msg)
  | OpPollRead p a e m =>
      beside (FluentRegisterTarget.pollRead aw dw interposer target p a e m msg)
  end.

(** For the nine operations that hand the work to the target's operation of
    the same name: that call alone, made with the caller's variables. *)
Definition target_call {St} (target : Target.t St) (o : Operation St)
    : option (M (Caller * St) unit) :=
  match o with
  | OpWrite a d => Some (beside (Target.write target a d))
  | OpRead a =>
      Some (with_out_data (v <- beside (Target.read target a) ;; modify (fun s => (v, snd s))))
  | OpReadModifyWrite a d m => Some (beside (Target.readModifyWrite target a d m))
  | OpSeqWrite a ds inc => Some (beside (Target.seqWrite target a ds inc))
  | OpSeqRead a inc => Some (with_out_span (Target.seqRead target a inc))
  | OpFifoWrite a ds => Some (beside (Target.fifoWrite target a ds))
  | OpFifoRead a => Some (with_out_span (Target.fifoRead target a))
  | OpCompWrite ads => Some (beside (Target.compWrite target ads))
  | OpCompRead addrs => Some (with_out_span (Target.compRead target addrs))
  | _ => None
  end.

(** A world in which nothing has happened yet. *)
Definition fresh {I St} (i : I) (st : St) : World I St := MkWorld i (MkEnv st 0).

(** ** Vocabulary of the statements *)

(** *** Life cycle *)

Definition extra_from (name : string) (e : Event) : Prop :=
  exists values, e = EvOpExtra "FluentRegisterTarget" name values.

(** The terminal event the wrapper emits for an outcome of the try block. *)
Definition terminal_events {A} (name : string) (r : Outcome A) : list Event :=
  match r with
  | Returned _ => [EvOpEnd "FluentRegisterTarget" name]
  | Thrown (StdExc _ what) => [EvOpError "FluentRegisterTarget" name what]
  | Thrown (NonStd _) => []
  | Stopped _ => []
  end.

(** The operation returned, or threw an object derived from
    [std::exception]. *)
Definition returned_or_std {A} (r : Outcome A) : Prop :=
  match r with
  | Returned _ => True
  | Thrown (StdExc _ _) => True
  | Thrown (NonStd _) => False
  | Stopped _ => False
  end.

Fixpoint count_events (p : Event -> bool) (evs : list Event) : nat :=
  match evs with
  | [] => O
  | e :: rest => ((if p e then 1 else 0) + count_events p rest)%nat
  end.

(** One start event first; then, last, one end event and no error event
    when the operation returned, one error event and no end event when it
    did not. *)
Definition one_start_one_terminal {A} (r : Outcome A) (news : list Event) : Prop :=
  count_events is_start news = 1%nat /\
  (exists e, head news = Some e /\ is_start e = true) /\
  match r with
  | Returned _ =>
      count_events is_end news = 1%nat /\ count_events is_error news = 0%nat /\
      (exists e, last news = Some e /\ is_end e = true)
  | _ =>
      count_events is_error news = 1%nat /\ count_events is_end news = 0%nat /\
      (exists e, last news = Some e /\ is_error e = true)
  end.

(** What the observer sees of one operation, and what the caller and the
    target see of it. *)
Definition lifecycle {St} (aw dw : Z) (target : Target.t St) (o : Operation St)
    (msg : string) (c : Caller) (w : World (list Event) St) : Prop :=
  let name := Target.getName target in
  let run := perform aw dw (Some observer) target o msg (c, w) in
  let quiet := perform aw dw (@None (IFluentRegisterTargetInterposer.t (list Event)))
                 target o msg (c, w) in
  (exists op_msg extras,
     Forall (extra_from name) extras /\
     ipos (snd (snd run))
     = ipos w ++ EvOpStart "FluentRegisterTarget" name op_msg
                 :: extras ++ terminal_events name (fst run)) /\
  (fst run = fst quiet /\
   fst (snd run) = fst (snd quiet) /\
   env (snd (snd run)) = env (snd (snd quiet))) /\
  (forall call, target_call target o = Some call ->
     fst run = fst (call (c, tgt (env w))) /\
     fst (snd run) = fst (snd (call (c, tgt (env w)))) /\
     tgt (env (snd (snd run))) = snd (snd (call (c, tgt (env w))))).

(** *** Sequential access *)

(** The four widths [ValidAddressOrDataType] allows. *)
Definition valid_width (w : Z) : Prop := w = 8 \/ w = 16 \/ w = 32 \/ w = 64.

(** [start + increment * index] as a value of an [aw]-bit [AddressType]. *)
Definition element_address (aw start_addr increment : Z) (index : nat) : Z :=
  (start_addr + increment * Z.of_nat index) mod 2 ^ aw.

(** [write(a0, d0); write(a1, d1); ...] *)
Fixpoint single_writes {St} (write : Z -> Z -> M St unit) (addr_data : list (Z * Z))
    : M St unit :=
  match addr_data with
  | [] => ret tt
  | ad :: rest => write (fst ad) (snd ad) ;; single_writes write rest
  end.

(** [out[index] = read(a0); out[index + 1] = read(a1); ...] *)
Fixpoint single_reads {St} (read : Z -> M St Z) (index : nat) (addresses : list Z)
    : M (list Z * St) unit :=
  match addresses with
  | [] => ret tt
  | a :: rest =>
      (v <- beside (read a) ;; span_store index v) ;;
      single_reads read (S index) rest
  end.

Definition write_of (ad : Z * Z) : Access := AWrite (fst ad) (snd ad).

(** *** Verification and polling *)

(** What a verdict [b] of a poller says when the check functor was the last
    thing to touch [reg_val]: [b] is the masked comparison of the value last
    read, and that value is what a read of the target returned on the way
    to the target's final state. *)
Definition last_read_decides {St} (target : Target.t St) (addr mask expected_val : Z)
    (r : Outcome bool * (Z * Env St)) : Prop :=
  forall b, fst r = Returned b ->
    b = (Z.land (fst (snd r)) mask =? expected_val) /\
    exists st, Target.read target addr st = (Returned (fst (snd r)), tgt (snd (snd r))).

(** Between two states of a recording target only reads of [addr] were
    issued, and the device's own state moved within [R]. *)
Definition reads_only {St} (R : St -> St -> Prop) (addr : Z)
    (before after : list Access * St) : Prop :=
  (exists k, fst after = fst before ++ repeat (ARead addr) k) /\
  R (snd before) (snd after).

(** The value a register of the dummy target holds. *)
Definition register_value (regs : gmap Z Z) (addr : Z) : Z := default 0 (regs !! addr).

Definition same_registers (regs regs' : gmap Z Z) : Prop :=
  forall addr, register_value regs' addr = register_value regs addr.

(** What a run of the poller that evaluated the predicate leaves in the log
    of a traced predicate, given the log [before]: evaluations that yielded
    false, then one last evaluation, which decides the verdict; after an
    evaluation that yields true nothing more happens, not even a sleep. *)
Definition poll_trace {Σ} `{Clock Σ} (before : list (Outcome bool * Z))
    (run : Outcome bool * (list (Outcome bool * Z) * Σ)) : Prop :=
  exists earlier last t,
    fst (snd run) = before ++ earlier ++ [(last, t)] /\
    Forall (fun e => fst e = Returned false) earlier /\
    match last with
    | Returned true => fst run = Returned true /\ now (snd (snd run)) = t
    | Returned false => fst run = Returned false \/ fst run = Stopped OutOfFuel
    | Thrown e => fst run = Thrown e
    | Stopped why => fst run = Stopped why
    end.

(** *** What is thrown inside an operation *)

(** The outcome of a step [r] inside a try block followed by [k]: what the
    step throws, and a stop inside it, pass as they are. *)
Definition propagate {A} (r : Outcome A) (k : A -> Outcome unit) : Outcome unit :=
  match r with
  | Returned a => k a
  | Thrown e => Thrown e
  | Stopped why => Stopped why
  end.

(** [check] is a check functor that, at each evaluation, reads the target
    at [addr] once, stores the value read in [reg_val] and yields whether
    it equals [expected_val] under [mask]; what the read throws leaves it
    as it is, with [reg_val] untouched. *)
Definition reads_and_compares {St} (target : Target.t St) (addr mask expected_val : Z)
    (check : M (Z * Env St) bool) : Prop :=
  forall reg_val e,
    check (reg_val, e)
    = match Target.read target addr (tgt e) with
      | (Returned v, st') =>
          (Returned (Z.land v mask =? expected_val), (v, MkEnv st' (clock e)))
      | (Thrown x, st') => (Thrown x, (reg_val, MkEnv st' (clock e)))
      | (Stopped why, st') => (Stopped why, (reg_val, MkEnv st' (clock e)))
      end.

(** What the three operations that do more than forward one call hand to
    their caller, and where they leave the target, from what the target's
    calls and the poller yield. *)
Definition composite_outcome {St} (aw dw : Z) (target : Target.t St) (o : Operation St)
    (msg : string) (c : Caller) (w : World (list Event) St) : Prop :=
  let run := perform aw dw (Some observer) target o msg (c, w) in
  match o with
  | OpWriteVerify addr data mask =>
      let written := Target.write target addr data (tgt (env w)) in
      let read_back := Target.read target addr (snd written) in
      fst run
      = propagate (fst written) (fun _ =>
          propagate (fst read_back) (fun reg_val =>
            if Z.land reg_val mask =? Z.land data mask then Returned tt
            else Thrown (WriteVerifyFailureException dw (Z.land data mask) mask reg_val))) /\
      tgt (env (snd (snd run)))
      = match fst written with
        | Returned _ => snd read_back
        | _ => snd written
        end
  | OpReadVerify addr expected mask =>
      let read_back := Target.read target addr (tgt (env w)) in
      fst run
      = propagate (fst read_back) (fun reg_val =>
          if Z.land reg_val mask =? Z.land expected mask then Returned tt
          else Thrown (ReadVerifyFailureException dw (Z.land expected mask) mask reg_val)) /\
      tgt (env (snd (snd run))) = snd read_back
  | OpPollRead poller addr expected mask =>
      exists check,
        reads_and_compares target addr mask (Z.land expected mask) check /\
        let polled := poller check (0, env w) in
        fst run
        = propagate (fst polled) (fun success =>
            if (success : bool) then Returned tt
            else Thrown (PollReadTimeoutException dw (Z.land expected mask) mask
                           (fst (snd polled)))) /\
        env (snd (snd run)) = snd (snd polled)
  | _ => True
  end.

(** *** compRead *)

(** The call ended by throwing, with the span and the target as they were. *)
Definition rejected_by_exception {St} (r : Outcome unit * (list Z * St))
    (out : list Z) (st : St) : Prop :=
  (exists e, fst r = Thrown e) /\ snd r = (out, st).

(** ** Targets used in examples *)

(** The dummy target with a log of the accesses issued on it. *)
Definition dut (ndebug : bool) : Target.t (list Access * gmap Z Z) :=
  Recording.make SimpleDummyRegisterTarget.write SimpleDummyRegisterTarget.read
    32 32 ndebug "dut" IRegisterTarget.getDomain.

(** The dummy registers behind a class that overrides [getDomain]. *)
Definition my_device : Target.t (gmap Z Z) :=
  IRegisterTarget.derive 32 32 false
    SimpleDummyRegisterTarget.write SimpleDummyRegisterTarget.read "dut" "MyDevice".

(** A target whose accesses throw a value that is no [std::exception]:
    [throw 42;]. *)
Definition foreign_thrower : Target.t unit :=
  IRegisterTarget.derive 32 32 false
    (fun _ _ => throw (NonStd 42)) (fun _ => throw (NonStd 42)) "dut" "Device".

(** A FIFO port: a write queues the word, a read takes the oldest word out
    (0 when the queue is empty). *)
Definition fifo_port : Target.t (list Z) :=
  IRegisterTarget.derive 32 32 false
    (fun _ d => modify (fun q => q ++ [d]))
    (fun _ q => match q with
                | [] => (Returned 0, [])
                | v :: q' => (Returned v, q')
                end)
    "fifo" "FifoPort".

(** A predicate that never holds and takes no time. *)
Definition never : M (Env unit) bool := ret false.

(** ** Vocabulary of the further properties *)

(** [w] is a [dw]-bit value that has the bits of [new_data] where [mask] is
    set and the bits of [old] elsewhere. *)
Definition merged_bits (dw old new_data mask w : Z) : Prop :=
  0 <= w < 2 ^ dw /\
  forall i, 0 <= i < dw ->
    Z.testbit w i = if Z.testbit mask i then Z.testbit new_data i else Z.testbit old i.

(** The span [out'] a batch read leaves has the size of the span [out] it
    was given, and differs from it at most at the [n] indices from [from]
    on. *)
Definition untouched_outside (from n : nat) (out out' : list Z) : Prop :=
  length out' = length out /\
  forall j, (j < from \/ from + n <= j)%nat -> out' !! j = out !! j.

(** *** Deadlines and clocks *)

(** [steady_clock] counts time in signed 64-bit ticks, nanoseconds on the
    usual implementations.  The deadline [start_timestamp + timeout] of
    [BasicPoller] is computed in that type, the timeout converted to ticks
    first; the sum is defined when both fit.  The time stamp given in
    microseconds is within one microsecond of the tick count. *)
Definition ticks_per_microsecond : Z := 1000.

Definition deadline_fits (start_timestamp timeout : Z) : Prop :=
  - 2 ^ 63 <= timeout * ticks_per_microsecond < 2 ^ 63 /\
  - 2 ^ 63 <= (start_timestamp + timeout) * ticks_per_microsecond /\
  (start_timestamp + timeout + 1) * ticks_per_microsecond <= 2 ^ 63.

(** A clock on which [sleep_for(d)] blocks for at least [d]: for [d] and
    as much longer as [late] says in the state at hand. *)
Definition late_clock {St} (late : Z -> Env St -> Z) : Clock (Env St) := {|
  now e := clock e;
  sleep_for d e := MkEnv (tgt e) (clock e + Z.max 0 d + Z.max 0 (late d e))
|}.

(** [BasicPoller] as [pollRead] calls it, on such a clock. *)
Definition late_poller {St} (late : Z -> Env St -> Z) (p : BasicPoller.t) (fuel : nat)
    : CPoller St :=
  @BasicPoller.call (Z * Env St) (@clock_with_local Z (Env St) (late_clock late)) p fuel.

(** *** What is reported through [opExtra] *)

(** The strings an operation hands to [opExtra] before it calls the target,
    and those it hands over after the call, given the caller's variables
    as the call left them. *)
Definition extras_before {St} (aw dw : Z) (o : Operation St) : list string :=
  match o with
  | OpSeqWrite _ data _ | OpFifoWrite _ data => map (fmt_hex dw) data
  | OpCompWrite addr_data =>
      map (fun ad => fmt_hex aw (fst ad) +:+ " " +:+ fmt_hex dw (snd ad)) addr_data
  | OpCompRead addresses => map (fmt_hex aw) addresses
  | _ => []
  end.

Definition extras_after {St} (dw : Z) (o : Operation St) (c' : Caller) : list string :=
  match o with
  | OpRead _ => [fmt_hex dw (out_data c')]
  | OpSeqRead _ _ | OpFifoRead _ | OpCompRead _ => map (fmt_hex dw) (out_span c')
  | _ => []
  end.

(** ** A subclass that chunks its sequential writes *)

(** The README's example of a subclass that supports 10 writes at a time
    and the increment 4 only.  [lower_write] stands for the lower-level
    call the example leaves open: perform the write with [chunk],
    [chunk_start_addr] and [increment]. *)
Module ChunkingSubclass.
Section Subclass.
Context {St : Type}.
Variable aw : Z.
Variable write : Z -> Z -> M St unit.
Variable lower_write : Z -> list Z -> Z -> M St unit.

Definition seqWrite (fuel : nat) (start_addr : Z) (data : list Z) (increment : Z)
    : M St unit :=
  if negb (increment =? 4)
  then IRegisterTarget.seqWrite aw write start_addr data increment
  else
    chunkify fuel data 10 (fun chunk chunk_offset =>
      let chunk_start_addr :=
        wrap aw (wrap size_t_bits
                   (start_addr + wrap size_t_bits (increment * Z.of_nat chunk_offset))) in
      lower_write chunk_start_addr chunk increment).
End Subclass.
End ChunkingSubclass.

(** The number of chunks of at most [max_chunk_size] elements that [n]
    elements make, and the chunk with a given index. *)
Definition chunk_count (n max_chunk_size : nat) : nat :=
  ((n + max_chunk_size - 1) / max_chunk_size)%nat.

Definition nth_chunk {T} (buffer : list T) (max_chunk_size : nat) (index : nat)
    : list T * nat :=
  (take max_chunk_size (drop (index * max_chunk_size) buffer), (index * max_chunk_size)%nat).

(** * Properties *)

Ltac unfold_monad :=
  unfold beside, zoom, bind, try_catch_std, gets, modify, ret, throw, halt, with_local.

Ltac unfold_ops :=
  unfold perform, with_out_data, with_out_span,
    FluentRegisterTarget.null, FluentRegisterTarget.delay,
    FluentRegisterTarget.write, FluentRegisterTarget.read,
    FluentRegisterTarget.readModifyWrite,
    FluentRegisterTarget.seqWrite, FluentRegisterTarget.seqRead,
    FluentRegisterTarget.fifoWrite, FluentRegisterTarget.fifoRead,
    FluentRegisterTarget.compWrite, FluentRegisterTarget.compRead,
    FluentRegisterTarget.writeVerify, FluentRegisterTarget.readVerify,
    FluentRegisterTarget.pollRead,
    FluentRegisterTarget.report, FluentRegisterTarget.report_beside,
    FluentRegisterTarget.opStart, FluentRegisterTarget.opEnd,
    FluentRegisterTarget.opError, FluentRegisterTarget.opExtra,
    FluentRegisterTarget.invoke,
    FluentRegisterTarget.on_tgt, FluentRegisterTarget.on_env,
    FluentRegisterTarget.on_span_tgt.

(** ** The monad *)

Lemma bind_modify {Σ B} (f : Σ -> Σ) (k : unit -> M Σ B) s :
  bind (modify f) k s = k tt (f s).
Proof. reflexivity. Qed.

Lemma bind_ext {Σ A B} (m : M Σ A) (k k' : A -> M Σ B) s :
  (forall a s', k a s' = k' a s') -> bind m k s = bind m k' s.
Proof. intros Hk. unfold bind. destruct (m s) as [[a|e|why] s']; auto. Qed.

Lemma for_each_modify {Σ A} (f : A -> Σ -> Σ) (xs : list A) (s : Σ) :
  for_each xs (fun x => modify (f x)) s = (Returned tt, fold_left (fun s x => f x s) xs s).
Proof.
  revert s. induction xs as [|x xs IH]; intros s; [reflexivity|].
  simpl. unfold bind, modify at 1. apply IH.
Qed.

(** ** chunkify *)

Lemma contiguous_increasing {T} (cs : list (list T * nat)) p :
  contiguous_from p cs ->
  Forall (fun c => (0 < length (fst c))%nat) cs ->
  strictly_increasing (map snd cs).
Proof.
  revert p. induction cs as [|[c off] cs IH]; intros p Hc Hne i a b Ha Hb.
  - discriminate.
  - destruct Hc as [-> Hc]. inversion Hne as [|? ? Hlen Hne']; subst. simpl in Hlen.
    destruct i as [|i]; simpl in Ha, Hb.
    + injection Ha as <-. destruct cs as [|[c' off'] cs']; [discriminate|].
      simpl in Hb. injection Hb as <-. destruct Hc as [-> _]. lia.
    + eapply (IH _ Hc Hne' i); eauto.
Qed.

(** The loop invariant: from a position inside the buffer and with enough
    fuel, the loop returns, and what it hands to the callback is a
    partition of the rest of the buffer. *)
Lemma chunkify_loop_record {T} (buffer : list T) (max_chunk_size : nat) :
  (0 < max_chunk_size)%nat ->
  forall fuel pos log,
    (pos <= length buffer)%nat ->
    (length buffer - pos < fuel)%nat ->
    exists cs,
      chunkify_loop fuel buffer max_chunk_size record_chunk pos log = (Returned tt, log ++ cs) /\
      concat (map fst cs) = drop pos buffer /\
      all_but_last_full max_chunk_size cs /\
      contiguous_from pos cs /\
      Forall (fun c => (0 < length (fst c) <= max_chunk_size)%nat) cs.
Proof.
  intros Hmax. induction fuel as [|fuel IH]; intros pos log Hpos Hfuel; [lia|].
  simpl. destruct (Nat.ltb_spec pos (length buffer)) as [Hlt|Hge].
  - set (n := Nat.min max_chunk_size (length buffer - pos)).
    assert (Hn : (0 < n <= max_chunk_size)%nat) by (unfold n; lia).
    assert (Hn' : (pos + n <= length buffer)%nat) by (unfold n; lia).
    unfold record_chunk at 1. rewrite bind_modify.
    destruct (IH (pos + n)%nat (log ++ [(subspan buffer pos n, pos)]))
      as (cs & Hrun & Hcat & Hfull & Hcont & Hall); [lia | lia |].
    assert (Hlen : length (subspan buffer pos n) = n).
    { unfold subspan. rewrite length_take, length_drop. lia. }
    exists ((subspan buffer pos n, pos) :: cs). split; [|split; [|split; [|split]]].
    + rewrite Hrun. by rewrite <- app_assoc.
    + simpl. rewrite Hcat. unfold subspan. rewrite <- drop_drop. apply take_drop.
    + intros i c off Hi Hlk. destruct i as [|i]; simpl in *.
      * injection Hlk as <- <-. rewrite Hlen.
        destruct cs as [|[c' off'] cs']; [simpl in Hi; lia|].
        inversion Hall as [|? ? [Hc1 Hc2] _]; subst. simpl in Hc1, Hc2.
        assert (Hd : drop (pos + n) buffer <> []).
        { rewrite <- Hcat. simpl. destruct c'; simpl in *; [lia | discriminate]. }
        assert ((pos + n < length buffer)%nat).
        { destruct (Nat.lt_ge_cases (pos + n) (length buffer)); [done|].
          exfalso. apply Hd. by apply drop_ge. }
        unfold n in *. lia.
      * eapply Hfull; [|exact Hlk]. lia.
    + simpl. split; [done|]. rewrite Hlen. exact Hcont.
    + constructor; [simpl; lia | exact Hall].
  - exists []. rewrite app_nil_r. split; [done|]. split; [|split; [|split]].
    + simpl. symmetry. apply drop_ge. lia.
    + intros i c off Hi. simpl in Hi. lia.
    + exact I.
    + constructor.
Qed.

Lemma chunkify_loop_total {T Σ} (buffer : list T) (max_chunk_size : nat)
    (fn : list T -> nat -> M Σ unit) :
  (0 < max_chunk_size)%nat ->
  (forall c p s, fst (fn c p s) <> Stopped OutOfFuel) ->
  forall fuel pos s,
    (length buffer - pos < fuel)%nat ->
    fst (chunkify_loop fuel buffer max_chunk_size fn pos s) <> Stopped OutOfFuel.
Proof.
  intros Hmax Hfn. induction fuel as [|fuel IH]; intros pos s Hfuel; [lia|].
  simpl. destruct (Nat.ltb_spec pos (length buffer)) as [Hlt|Hge]; [|discriminate].
  unfold bind.
  pose proof (Hfn (subspan buffer pos (Nat.min max_chunk_size (length buffer - pos))) pos s) as Hc.
  destruct (fn _ pos s) as [[[]|e|why] s']; simpl in *.
  - apply IH. lia.
  - discriminate.
  - exact Hc.
Qed.

Lemma chunkify_loop_stuck {T Σ} (buffer : list T) (fn : list T -> nat -> M Σ unit) :
  buffer <> [] ->
  (forall c p s, exists s', fn c p s = (Returned tt, s')) ->
  forall fuel s, fst (chunkify_loop fuel buffer 0 fn 0 s) = Stopped OutOfFuel.
Proof.
  intros Hne Hfn. induction fuel as [|fuel IH]; intros s; [reflexivity|].
  simpl. destruct buffer as [|x buffer]; [done|]. simpl.
  unfold bind. destruct (Hfn (subspan (x :: buffer) 0 0) 0%nat s) as [s' ->].
  apply IH.
Qed.

Lemma chunkify_loop_stuck_record {T} (buffer : list T) :
  buffer <> [] ->
  forall fuel log,
    chunkify_loop fuel buffer 0 record_chunk 0 log
    = (Stopped OutOfFuel, log ++ repeat ([], 0%nat) fuel).
Proof.
  intros Hne. induction fuel as [|fuel IH]; intros log.
  - simpl. by rewrite app_nil_r.
  - simpl. destruct buffer as [|x buffer]; [done|]. simpl.
    unfold record_chunk at 1. rewrite bind_modify, IH.
    by rewrite <- app_assoc.
Qed.

(** C4, as amended: for every sequence and every chunk size greater than
    zero, and for the empty sequence with any chunk size, [chunkify] returns
    and hands its callback, in order, consecutive sub-sequences whose
    concatenation is the input; every chunk has at most the chunk size and
    every chunk but the last exactly that size; the offsets start at 0, each is the previous offset plus the
    previous chunk's length, and they strictly increase. *)
Theorem chunkify_partitions {T} (buffer : list T) (max_chunk_size : nat) :
  (0 < max_chunk_size)%nat \/ buffer = [] ->
  chunking_contract buffer max_chunk_size.
Proof.
  intros [Hmax | ->].
  - destruct (chunkify_loop_record buffer max_chunk_size Hmax (S (length buffer)) 0 [])
      as (cs & Hrun & Hcat & Hfull & Hcont & Hall); [lia | lia |].
    exists (S (length buffer)), cs. split; [exact Hrun|]. split; [exact Hcat|].
    split; [eapply Forall_impl; [exact Hall|]; simpl; intros; lia|].
    split; [exact Hfull|]. split; [exact Hcont|].
    eapply contiguous_increasing; [exact Hcont|].
    eapply Forall_impl; [exact Hall|]. simpl. intros; lia.
  - exists 1%nat, []. split; [reflexivity|]. split; [reflexivity|].
    split; [constructor|].
    split; [|split; [exact I|]].
    + intros i c off Hi. simpl in Hi. lia.
    + intros i a b Ha. discriminate.
Qed.

Lemma chunkify_partitions_witness :
  chunking_contract [1; 2; 3; 4; 5] 2.
Proof. apply chunkify_partitions. left. lia. Defined.

(** C4 as it was stated, for any chunk size, fails at chunk size 0 on a
    sequence of one element: the loop hands out empty chunks at offset 0 for
    as long as it is run and never returns. *)
Lemma chunkify_zero_chunk_size_counterexample :
  ~ chunking_contract [7] 0.
Proof.
  intros (fuel & cs & Hrun & _).
  unfold chunkify in Hrun. rewrite chunkify_loop_stuck_record in Hrun by done.
  discriminate.
Qed.

(** C9: with a chunk size greater than zero [chunkify] comes to an end on
    every buffer, within one test of the loop condition per element plus
    one, whatever the callback does short of looping itself; on an empty
    buffer it returns at once for every chunk size, the callback not being
    invoked (the state is untouched); with chunk size 0 and a buffer that is
    not empty the position never advances: however long the loop is run it
    is still running, every invocation of the callback having received an
    empty chunk at offset 0. *)
Theorem chunkify_termination {T Σ} (fn : list T -> nat -> M Σ unit) :
  (forall buffer max_chunk_size s,
      (0 < max_chunk_size)%nat ->
      (forall c p s', fst (fn c p s') <> Stopped OutOfFuel) ->
      forall fuel, (length buffer < fuel)%nat ->
        fst (chunkify fuel buffer max_chunk_size fn s) <> Stopped OutOfFuel) /\
  (forall max_chunk_size fuel s,
      chunkify (S fuel) [] max_chunk_size fn s = (Returned tt, s)) /\
  (forall buffer s,
      buffer <> [] ->
      (forall c p s', exists s'', fn c p s' = (Returned tt, s'')) ->
      forall fuel, fst (chunkify fuel buffer 0 fn s) = Stopped OutOfFuel) /\
  (forall buffer : list T,
      buffer <> [] ->
      forall fuel, chunkify fuel buffer 0 record_chunk []
                   = (Stopped OutOfFuel, repeat ([], 0%nat) fuel)).
Proof.
  split; [|split; [|split]].
  - intros buffer m s Hmax Hfn fuel Hfuel. apply chunkify_loop_total; [done | done | lia].
  - reflexivity.
  - intros buffer s Hne Hfn fuel. by apply chunkify_loop_stuck.
  - intros buffer Hne fuel. unfold chunkify. by rewrite chunkify_loop_stuck_record.
Qed.

Lemma chunkify_termination_witness :
  fst (chunkify 4 [1; 2; 3] 2 record_chunk []) <> Stopped OutOfFuel /\
  fst (chunkify 9 [1; 2; 3] 0 record_chunk []) = Stopped OutOfFuel.
Proof.
  destruct (chunkify_termination (T := Z) record_chunk) as (Hpos & _ & Hzero & _).
  split.
  - apply Hpos; [lia | discriminate | simpl; lia].
  - apply Hzero; [discriminate | intros c p s'; eexists; reflexivity].
Defined.

(** ** The default sequential access *)

(** The address arithmetic of the loop, done in [size_t] and narrowed at the
    call, is [start + increment * index] in the address width. *)
Lemma seq_address_spec aw start_addr increment i :
  valid_width aw ->
  IRegisterTarget.seq_address aw start_addr increment i
  = element_address aw start_addr increment i.
Proof.
  intros Haw. unfold IRegisterTarget.seq_address, element_address, wrap, size_t_bits.
  assert (H64 : 2 ^ 64 = 2 ^ aw * 2 ^ (64 - aw)).
  { rewrite <- Z.pow_add_r by (destruct Haw as [->|[->|[->| ->]]]; lia). f_equal. lia. }
  assert (Hpos : 0 < 2 ^ aw) by (destruct Haw as [->|[->|[->| ->]]]; lia).
  assert (Hpos' : 0 < 2 ^ (64 - aw)) by (destruct Haw as [->|[->|[->| ->]]]; simpl; lia).
  rewrite Zplus_mod_idemp_r.
  rewrite H64. rewrite Z.rem_mul_r by lia.
  rewrite (Z.mul_comm (2 ^ aw)), Z.mod_add by lia. by rewrite Z.mod_mod by lia.
Qed.

Section SeqDefault.
Context {St : Type}.
Variables (write : Z -> Z -> M St unit) (read : Z -> M St Z).

Lemma for_from_single_writes (addr : nat -> Z) (data pre : list Z) s :
  for_from (length pre) (length data)
    (fun i => write (addr i) (nth i (pre ++ data) 0)) s
  = single_writes write (imap (fun i d => (addr (length pre + i)%nat, d)) data) s.
Proof.
  revert pre s. induction data as [|d data IH]; intros pre s; [reflexivity|].
  simpl. rewrite Nat.add_0_r.
  replace (nth (length pre) (pre ++ d :: data) 0) with d
    by (rewrite app_nth2, Nat.sub_diag by lia; reflexivity).
  apply bind_ext. intros _ s'.
  specialize (IH (pre ++ [d]) s'). rewrite length_app in IH. simpl in IH.
  rewrite Nat.add_1_r in IH. rewrite <- app_assoc in IH. simpl in IH.
  rewrite IH. f_equal. apply imap_ext. intros i x _. simpl. do 2 f_equal. lia.
Qed.

Lemma for_from_single_reads (addr : nat -> Z) (n from : nat) s :
  for_from from n
    (fun i => v <- beside (read (addr i)) ;; span_store i v) s
  = single_reads read from (map addr (seq from n)) s.
Proof.
  revert from s. induction n as [|n IH]; intros from s; [reflexivity|].
  simpl. apply bind_ext. intros _ s'. apply IH.
Qed.

Lemma rwrite_run a d (log : list Access) (st : St) :
  Recording.rwrite write a d (log, st)
  = (fst (write a d st), (log ++ [AWrite a d], snd (write a d st))).
Proof.
  unfold Recording.rwrite, Recording.note, bind, modify, beside, zoom. simpl.
  by destruct (write a d st).
Qed.

Lemma rread_run a (log : list Access) (st : St) :
  Recording.rread read a (log, st)
  = (fst (read a st), (log ++ [ARead a], snd (read a st))).
Proof.
  unfold Recording.rread, Recording.note, bind, modify, beside, zoom. simpl.
  by destruct (read a st).
Qed.

(** A run of single writes on a recording target logs a prefix of them, all
    of them when it returns. *)
Lemma single_writes_recorded (ads : list (Z * Z)) log st :
  exists k,
    (k <= length ads)%nat /\
    fst (snd (single_writes (Recording.rwrite write) ads (log, st)))
      = log ++ map write_of (take k ads) /\
    (fst (single_writes (Recording.rwrite write) ads (log, st)) = Returned tt ->
     k = length ads).
Proof.
  revert log st. induction ads as [|[a d] ads IH]; intros log st.
  - exists 0%nat. simpl. rewrite app_nil_r. auto.
  - cbn [single_writes fst snd]. unfold bind. rewrite rwrite_run.
    destruct (write a d st) as [[[]|e|why] st']; cbn [fst snd].
    + destruct (IH (log ++ [AWrite a d]) st') as (k & Hk & Hlog & Hret).
      exists (S k). split; [simpl; lia|]. split.
      * rewrite Hlog. simpl. by rewrite <- app_assoc.
      * intros H. simpl. f_equal. by apply Hret.
    + exists 1%nat. split; [simpl; lia|]. split; [reflexivity|discriminate].
    + exists 1%nat. split; [simpl; lia|]. split; [reflexivity|discriminate].
Qed.

Lemma single_reads_recorded (addrs : list Z) i out log st :
  exists k,
    (k <= length addrs)%nat /\
    fst (snd (snd (single_reads (Recording.rread read) i addrs (out, (log, st)))))
      = log ++ map ARead (take k addrs) /\
    (fst (single_reads (Recording.rread read) i addrs (out, (log, st))) = Returned tt ->
     k = length addrs).
Proof.
  revert i out log st. induction addrs as [|a addrs IH]; intros i out log st.
  - exists 0%nat. simpl. rewrite app_nil_r. auto.
  - cbn [single_reads]. unfold bind, beside, zoom, span_store. cbn [fst snd].
    rewrite rread_run.
    destruct (read a st) as [[v|e|why] st']; cbn [fst snd].
    + destruct (i <? length out)%nat; cbn [fst snd].
      * destruct (IH (S i) (<[i:=v]> out) (log ++ [ARead a]) st') as (k & Hk & Hlog & Hret).
        exists (S k). split; [simpl; lia|]. split.
        -- rewrite Hlog. simpl. by rewrite <- app_assoc.
        -- intros H. simpl. f_equal. by apply Hret.
      * exists 1%nat. split; [simpl; lia|]. split; [reflexivity|discriminate].
    + exists 1%nat. split; [simpl; lia|]. split; [reflexivity|discriminate].
    + exists 1%nat. split; [simpl; lia|]. split; [reflexivity|discriminate].
Qed.
End SeqDefault.

(** C7: the default [seqWrite(start, data, increment)] is, on every target
    and from every state, the sequence of single writes
    [write(start + increment*0, data[0]); write(start + increment*1, data[1]); ...]
    with the addresses taken in the address width; on a target that logs
    its accesses it issues one write per element, in increasing index order
    (a prefix of them if a write fails, all of them if the call returns).
    Likewise the default [seqRead] is the sequence of single reads into
    [out_data[0]], [out_data[1]], ... and issues one read per element in
    increasing index order.  Where [start + increment*index] fits the
    address type, that number is the address. *)
Theorem seqWrite_seqRead_element_by_element
    {St : Type} (aw : Z) (write : Z -> Z -> M St unit) (read : Z -> M St Z)
    (start_addr increment : Z) :
  valid_width aw ->
  (forall data st,
      IRegisterTarget.seqWrite aw write start_addr data increment st
      = single_writes write
          (imap (fun i d => (element_address aw start_addr increment i, d)) data) st) /\
  (forall data log st,
      exists k,
        (k <= length data)%nat /\
        fst (snd (IRegisterTarget.seqWrite aw (Recording.rwrite write)
                    start_addr data increment (log, st)))
        = log ++ take k (imap (fun i d => AWrite (element_address aw start_addr increment i) d)
                              data) /\
        (fst (IRegisterTarget.seqWrite aw (Recording.rwrite write)
                start_addr data increment (log, st)) = Returned tt ->
         k = length data)) /\
  (forall out_data st,
      IRegisterTarget.seqRead aw read start_addr increment (out_data, st)
      = single_reads read 0
          (map (element_address aw start_addr increment) (seq 0 (length out_data)))
          (out_data, st)) /\
  (forall out_data log st,
      exists k,
        (k <= length out_data)%nat /\
        fst (snd (snd (IRegisterTarget.seqRead aw (Recording.rread read)
                         start_addr increment (out_data, (log, st)))))
        = log ++ take k (map (fun i => ARead (element_address aw start_addr increment i))
                             (seq 0 (length out_data))) /\
        (fst (IRegisterTarget.seqRead aw (Recording.rread read)
                start_addr increment (out_data, (log, st))) = Returned tt ->
         k = length out_data)) /\
  (forall index,
      0 <= start_addr + increment * Z.of_nat index < 2 ^ aw ->
      element_address aw start_addr increment index
      = start_addr + increment * Z.of_nat index).
Proof.
  intros Haw.
  assert (Hw : forall St' (w : Z -> Z -> M St' unit) data st,
             IRegisterTarget.seqWrite aw w start_addr data increment st
             = single_writes w
                 (imap (fun i d => (element_address aw start_addr increment i, d)) data) st).
  { intros St' w data st. unfold IRegisterTarget.seqWrite.
    etransitivity;
      [exact (for_from_single_writes w
                (IRegisterTarget.seq_address aw start_addr increment) data [] st)|].
    f_equal. apply imap_ext. intros i x _. simpl. by rewrite seq_address_spec. }
  assert (Hr : forall St' (r : Z -> M St' Z) out_data st,
             IRegisterTarget.seqRead aw r start_addr increment (out_data, st)
             = single_reads r 0
                 (map (element_address aw start_addr increment) (seq 0 (length out_data)))
                 (out_data, st)).
  { intros St' r out_data st. unfold IRegisterTarget.seqRead. simpl.
    etransitivity;
      [exact (for_from_single_reads r
                (IRegisterTarget.seq_address aw start_addr increment) _ 0 _)|].
    f_equal. apply map_ext. intros i. by apply seq_address_spec. }
  split; [apply Hw|]. split; [|split; [apply Hr|split]].
  - intros data log st. rewrite Hw.
    destruct (single_writes_recorded write
                (imap (fun i d => (element_address aw start_addr increment i, d)) data) log st)
      as (k & Hk & Hlog & Hret).
    rewrite length_imap in Hk, Hret.
    exists k. split; [exact Hk|]. split; [|exact Hret].
    rewrite Hlog. f_equal. rewrite <- firstn_map. f_equal.
    change (map write_of) with (fmap (M:=list) write_of). rewrite fmap_imap. reflexivity.
  - intros out_data log st. rewrite Hr.
    destruct (single_reads_recorded read
                (map (element_address aw start_addr increment) (seq 0 (length out_data)))
                0 out_data log st) as (k & Hk & Hlog & Hret).
    rewrite length_map, length_seq in Hk, Hret.
    exists k. split; [exact Hk|]. split; [|exact Hret].
    rewrite Hlog. f_equal. rewrite <- !firstn_map. by rewrite map_map.
  - intros index Hrange. unfold element_address. by apply Z.mod_small.
Qed.

(** [seqWrite(0x100, {a, b, c}, 4)] on the dummy target is
    [write(0x100, a); write(0x104, b); write(0x108, c)]. *)
Lemma seqWrite_seqRead_element_by_element_witness :
  valid_width 32 /\
  IRegisterTarget.seqWrite 32 SimpleDummyRegisterTarget.write 0x100 [0xa; 0xb; 0xc] 4 ∅
  = (SimpleDummyRegisterTarget.write 0x100 0xa ;;
     SimpleDummyRegisterTarget.write 0x104 0xb ;;
     SimpleDummyRegisterTarget.write 0x108 0xc ;;
     ret tt) ∅.
Proof.
  assert (Hw : valid_width 32) by (right; right; left; reflexivity).
  split; [exact Hw|].
  rewrite (proj1 (seqWrite_seqRead_element_by_element 32
                    SimpleDummyRegisterTarget.write SimpleDummyRegisterTarget.read
                    0x100 4 Hw)).
  reflexivity.
Defined.


(** ** What the observer receives *)

Arguments FluentRegisterTarget.opExtra_span : simpl never.
Arguments FluentRegisterTarget.opExtra_addresses : simpl never.
Arguments FluentRegisterTarget.opExtra_pairs : simpl never.

Section Observed.
Context {St : Type}.
Variables (aw dw : Z) (target : Target.t St).
Local Abbreviation W := (World (list Event) St).
Local Abbreviation name := (Target.getName target).
Local Abbreviation extra := (EvOpExtra "FluentRegisterTarget" name).

Lemma fold_left_events {A} (g : A -> Event) (xs : list A) (w : W) :
  fold_left (fun w x => MkWorld (ipos w ++ [g x]) (env w)) xs w
  = MkWorld (ipos w ++ map g xs) (env w).
Proof.
  revert w. induction xs as [|x xs IH]; intros w; simpl.
  - rewrite app_nil_r. by destruct w.
  - rewrite IH. simpl. by rewrite <- app_assoc.
Qed.

Lemma opExtra_span_run data (w : W) :
  FluentRegisterTarget.opExtra_span dw (Some observer) target data w
  = (Returned tt, MkWorld (ipos w ++ map (fun d => extra (fmt_hex dw d)) data) (env w)).
Proof.
  unfold FluentRegisterTarget.opExtra_span.
  rewrite (for_each_modify (fun d w =>
     MkWorld (IFluentRegisterTargetInterposer.opExtra observer "FluentRegisterTarget" name
                (fmt_hex dw d) (ipos w)) (env w))).
  f_equal. apply (fold_left_events (fun d => extra (fmt_hex dw d))).
Qed.

Lemma opExtra_addresses_run addrs (w : W) :
  FluentRegisterTarget.opExtra_addresses aw (Some observer) target addrs w
  = (Returned tt, MkWorld (ipos w ++ map (fun a => extra (fmt_hex aw a)) addrs) (env w)).
Proof.
  unfold FluentRegisterTarget.opExtra_addresses.
  rewrite (for_each_modify (fun d w =>
     MkWorld (IFluentRegisterTargetInterposer.opExtra observer "FluentRegisterTarget" name
                (fmt_hex aw d) (ipos w)) (env w))).
  f_equal. apply (fold_left_events (fun d => extra (fmt_hex aw d))).
Qed.

Lemma opExtra_pairs_run ads (w : W) :
  FluentRegisterTarget.opExtra_pairs aw dw (Some observer) target ads w
  = (Returned tt,
     MkWorld (ipos w ++ map (fun ad => extra (fmt_hex aw (fst ad) +:+ " " +:+ fmt_hex dw (snd ad))) ads)
             (env w)).
Proof.
  unfold FluentRegisterTarget.opExtra_pairs.
  rewrite (for_each_modify (fun ad w =>
     MkWorld (IFluentRegisterTargetInterposer.opExtra observer "FluentRegisterTarget" name
                (fmt_hex aw (fst ad) +:+ " " +:+ fmt_hex dw (snd ad)) (ipos w)) (env w))).
  f_equal.
  apply (fold_left_events (fun ad => extra (fmt_hex aw (fst ad) +:+ " " +:+ fmt_hex dw (snd ad)))).
Qed.

Lemma opExtra_span_quiet I data (w : World I St) :
  FluentRegisterTarget.opExtra_span dw None target data w = (Returned tt, w).
Proof. reflexivity. Qed.

Lemma opExtra_addresses_quiet I addrs (w : World I St) :
  FluentRegisterTarget.opExtra_addresses aw None target addrs w = (Returned tt, w).
Proof. reflexivity. Qed.

Lemma opExtra_pairs_quiet I ads (w : World I St) :
  FluentRegisterTarget.opExtra_pairs aw dw None target ads w = (Returned tt, w).
Proof. reflexivity. Qed.

Lemma Forall_extra {A} (g : A -> string) (xs : list A) :
  Forall (extra_from name) (map (fun x => extra (g x)) xs).
Proof. induction xs; constructor; [by eexists | auto]. Qed.

Ltac runs :=
  rewrite ?opExtra_span_run, ?opExtra_addresses_run, ?opExtra_pairs_run,
    ?opExtra_span_quiet, ?opExtra_addresses_quiet, ?opExtra_pairs_quiet.

Ltac start := unfold lifecycle; unfold_ops; unfold_monad; cbn; runs; cbn.

Ltac shape extras :=
  split;
  [ eexists _, extras; split;
    [ first [ by constructor
            | apply Forall_extra
            | by repeat (constructor; [by eexists|])
            | apply Forall_app; split; apply Forall_extra ]
    | cbn; rewrite <- ?app_assoc, ?app_nil_r; cbn; try reflexivity ]
  | split; [auto|];
    first [ by intros ? [=]
          | intros ? [= <-]; unfold with_out_data, with_out_span; unfold_monad; cbn;
            match goal with E : _ = _ |- _ => rewrite E end; cbn; auto ] ].

Lemma lifecycle_null msg c w : lifecycle aw dw target OpNull msg c w.
Proof. start. shape (@nil Event). Qed.

Lemma lifecycle_delay d msg c w : lifecycle aw dw target (OpDelay d) msg c w.
Proof. start. shape (@nil Event). Qed.

Lemma lifecycle_write a d msg c w : lifecycle aw dw target (OpWrite a d) msg c w.
Proof.
  start.
  destruct (Target.write target a d (tgt (env w))) as [[[]|[cls what|p]|why] st'] eqn:E; cbn.
  all: shape (@nil Event).
Qed.

Lemma lifecycle_read a msg c w : lifecycle aw dw target (OpRead a) msg c w.
Proof.
  start.
  destruct (Target.read target a (tgt (env w))) as [[v|[cls what|p]|why] st'] eqn:E; cbn.
  - shape [extra (fmt_hex dw v)].
  - shape (@nil Event).
  - shape (@nil Event).
  - shape (@nil Event).
Qed.

Lemma lifecycle_readModifyWrite a d m msg c w :
  lifecycle aw dw target (OpReadModifyWrite a d m) msg c w.
Proof.
  start.
  destruct (Target.readModifyWrite target a d m (tgt (env w)))
    as [[[]|[cls what|p]|why] st'] eqn:E; cbn.
  all: shape (@nil Event).
Qed.

Lemma lifecycle_seqWrite a ds inc msg c w :
  lifecycle aw dw target (OpSeqWrite a ds inc) msg c w.
Proof.
  start.
  destruct (Target.seqWrite target a ds inc (tgt (env w)))
    as [[[]|[cls what|p]|why] st'] eqn:E; cbn.
  all: shape (map (fun d => extra (fmt_hex dw d)) ds).
Qed.

Lemma lifecycle_fifoWrite a ds msg c w :
  lifecycle aw dw target (OpFifoWrite a ds) msg c w.
Proof.
  start.
  destruct (Target.fifoWrite target a ds (tgt (env w)))
    as [[[]|[cls what|p]|why] st'] eqn:E; cbn.
  all: shape (map (fun d => extra (fmt_hex dw d)) ds).
Qed.

Lemma lifecycle_compWrite ads msg c w :
  lifecycle aw dw target (OpCompWrite ads) msg c w.
Proof.
  start.
  destruct (Target.compWrite target ads (tgt (env w)))
    as [[[]|[cls what|p]|why] st'] eqn:E; cbn.
  all: shape (map (fun ad => extra (fmt_hex aw (fst ad) +:+ " " +:+ fmt_hex dw (snd ad))) ads).
Qed.

Lemma lifecycle_seqRead a inc msg c w :
  lifecycle aw dw target (OpSeqRead a inc) msg c w.
Proof.
  start.
  destruct (Target.seqRead target a inc (out_span c, tgt (env w)))
    as [[[]|[cls what|p]|why] [out' st']] eqn:E; cbn; runs; cbn.
  - shape (map (fun d => extra (fmt_hex dw d)) out').
  - shape (@nil Event).
  - shape (@nil Event).
  - shape (@nil Event).
Qed.

Lemma lifecycle_fifoRead a msg c w :
  lifecycle aw dw target (OpFifoRead a) msg c w.
Proof.
  start.
  destruct (Target.fifoRead target a (out_span c, tgt (env w)))
    as [[[]|[cls what|p]|why] [out' st']] eqn:E; cbn; runs; cbn.
  - shape (map (fun d => extra (fmt_hex dw d)) out').
  - shape (@nil Event).
  - shape (@nil Event).
  - shape (@nil Event).
Qed.

Lemma lifecycle_compRead addrs msg c w :
  lifecycle aw dw target (OpCompRead addrs) msg c w.
Proof.
  start.
  destruct (Target.compRead target addrs (out_span c, tgt (env w)))
    as [[[]|[cls what|p]|why] [out' st']] eqn:E; cbn; runs; cbn.
  - shape (map (fun a => extra (fmt_hex aw a)) addrs
           ++ map (fun d => extra (fmt_hex dw d)) out').
  - shape (map (fun a => extra (fmt_hex aw a)) addrs).
  - shape (map (fun a => extra (fmt_hex aw a)) addrs).
  - shape (map (fun a => extra (fmt_hex aw a)) addrs).
Qed.

Lemma lifecycle_writeVerify a d m msg c w :
  lifecycle aw dw target (OpWriteVerify a d m) msg c w.
Proof.
  start.
  destruct (Target.write target a d (tgt (env w))) as [[[]|[cls what|p]|why] st']; cbn.
  2-4: shape (@nil Event).
  destruct (Target.read target a st') as [[v|[cls what|p]|why] st'']; cbn.
  2-4: shape (@nil Event).
  destruct (Z.land v m =? Z.land d m); cbn; shape (@nil Event).
Qed.

Lemma lifecycle_readVerify a e m msg c w :
  lifecycle aw dw target (OpReadVerify a e m) msg c w.
Proof.
  start.
  destruct (Target.read target a (tgt (env w))) as [[v|[cls what|p]|why] st']; cbn.
  2-4: shape (@nil Event).
  destruct (Z.land v m =? Z.land e m); cbn; shape (@nil Event).
Qed.

Lemma lifecycle_pollRead p a e m msg c w :
  lifecycle aw dw target (OpPollRead p a e m) msg c w.
Proof.
  start.
  destruct (p _ (0, env w)) as [[b|[cls what|x]|why] [rv e']]; cbn.
  2-4: shape (@nil Event).
  destruct b; cbn; shape (@nil Event).
Qed.

Lemma lifecycle_holds o msg c w : lifecycle aw dw target o msg c w.
Proof.
  destruct o.
  - apply lifecycle_null.
  - apply lifecycle_delay.
  - apply lifecycle_write.
  - apply lifecycle_read.
  - apply lifecycle_readModifyWrite.
  - apply lifecycle_seqWrite.
  - apply lifecycle_seqRead.
  - apply lifecycle_fifoWrite.
  - apply lifecycle_fifoRead.
  - apply lifecycle_compWrite.
  - apply lifecycle_compRead.
  - apply lifecycle_writeVerify.
  - apply lifecycle_readVerify.
  - apply lifecycle_pollRead.
Qed.
End Observed.

(** Counting in a list of events. *)
Lemma count_events_app p (xs ys : list Event) :
  count_events p (xs ++ ys) = (count_events p xs + count_events p ys)%nat.
Proof. induction xs as [|x xs IH]; simpl; [reflexivity | rewrite IH; lia]. Qed.

Lemma count_events_extras name p (extras : list Event) :
  (forall d i v, p (EvOpExtra d i v) = false) ->
  Forall (extra_from name) extras ->
  count_events p extras = 0%nat.
Proof.
  intros Hp. induction 1 as [|e extras [v ->] _ IH]; simpl; [reflexivity|].
  by rewrite Hp, IH.
Qed.

Lemma shape_counts {A} name op_msg (extras : list Event) (r : Outcome A) :
  Forall (extra_from name) extras ->
  returned_or_std r ->
  one_start_one_terminal r
    (EvOpStart "FluentRegisterTarget" name op_msg :: extras ++ terminal_events name r).
Proof.
  intros Hex Hr.
  pose proof (count_events_extras name is_start extras (fun _ _ _ => eq_refl) Hex) as Hs.
  pose proof (count_events_extras name is_end extras (fun _ _ _ => eq_refl) Hex) as He.
  pose proof (count_events_extras name is_error extras (fun _ _ _ => eq_refl) Hex) as Hx.
  unfold one_start_one_terminal.
  destruct r as [a|[cls what|p]|why]; simpl in Hr; try done.
  - simpl. rewrite !count_events_app, Hs, He, Hx. simpl.
    repeat split; try done; [by eexists|].
    eexists. split; [rewrite app_comm_cons; apply last_snoc | reflexivity].
  - simpl. rewrite !count_events_app, Hs, He, Hx. simpl.
    repeat split; try done; [by eexists|].
    eexists. split; [rewrite app_comm_cons; apply last_snoc | reflexivity].
Qed.

Lemma poll_check_reads_and_compares {St} (target : Target.t St) addr mask expected_val :
  reads_and_compares target addr mask expected_val
    (FluentRegisterTarget.poll_check target addr mask expected_val).
Proof.
  intros rv e. unfold FluentRegisterTarget.poll_check. unfold_monad. cbn.
  destruct (Target.read target addr (tgt e)) as [[v|x|why] st']; reflexivity.
Qed.

Lemma composite_outcome_holds {St} (aw dw : Z) (target : Target.t St) (o : Operation St)
    (msg : string) (c : Caller) (w : World (list Event) St) :
  composite_outcome aw dw target o msg c w.
Proof.
  destruct o as [|d|a d|a|a d m|a ds inc|a inc|a ds|a|ads|addrs|a d m|a e m|p a e m];
    try exact I.
  - unfold composite_outcome. unfold_ops. unfold_monad. cbn.
    destruct (Target.write target a d (tgt (env w))) as [[[]|[cls what|x]|why] st1]; cbn;
      try (split; reflexivity).
    destruct (Target.read target a st1) as [[v|[cls what|x]|why] st2]; cbn;
      try (split; reflexivity).
    destruct (Z.land v m =? Z.land d m); cbn; split; reflexivity.
  - unfold composite_outcome. unfold_ops. unfold_monad. cbn.
    destruct (Target.read target a (tgt (env w))) as [[v|[cls what|x]|why] st1]; cbn;
      try (split; reflexivity).
    destruct (Z.land v m =? Z.land e m); cbn; split; reflexivity.
  - unfold composite_outcome.
    exists (FluentRegisterTarget.poll_check target a m (Z.land e m)).
    split; [apply poll_check_reads_and_compares|].
    unfold_ops. unfold_monad. cbn.
    destruct (p _ (0, env w)) as [[b|[cls what|x]|why] [rv e']]; cbn;
      try (split; reflexivity).
    destruct b; cbn; split; reflexivity.
Qed.

(** C2, as amended: for each of the fourteen wrapped operations and every
    behaviour of the underlying target, the interposer observes one start
    event first, then only extra events, and then: one end event if the
    operation returns; one error event, carrying [what()] of the exception,
    if it fails with an exception derived from [std::exception]; and no
    terminal event if it fails with a thrown value of any other type or the
    program stops inside it.  So for an operation that returns or fails
    with a [std::exception] there is exactly one start event followed by
    exactly one end (resp. error) event and no error (resp. end) event.  In
    every case what the caller gets (the return or the very exception
    thrown inside), the caller's variables and the target are what they are
    without an interposer, and for the operations that forward to the
    target what the target's own operation yields.  For [writeVerify],
    [readVerify] and [pollRead], which do more than forward one call: what
    the target's [write] or [read], or the poller, throws is what the
    caller gets, and otherwise the caller gets the verdict of the masked
    comparison. *)
Theorem lifecycle_events
    {St : Type} (aw dw : Z) (target : Target.t St) (o : Operation St)
    (msg : string) (c : Caller) (w : World (list Event) St) :
  lifecycle aw dw target o msg c w /\
  (forall news,
      ipos (snd (snd (perform aw dw (Some observer) target o msg (c, w)))) = ipos w ++ news ->
      returned_or_std (fst (perform aw dw (Some observer) target o msg (c, w))) ->
      one_start_one_terminal (fst (perform aw dw (Some observer) target o msg (c, w))) news) /\
  composite_outcome aw dw target o msg c w.
Proof.
  pose proof (lifecycle_holds aw dw target o msg c w) as Hl.
  split; [exact Hl|]. split; [|apply composite_outcome_holds].
  destruct Hl as [(op_msg & extras & Hex & Hshape) _].
  intros news Hnews Hr. rewrite Hshape in Hnews. apply app_inv_head in Hnews. subst news.
  by apply shape_counts.
Qed.

Lemma lifecycle_events_witness :
  one_start_one_terminal
    (fst (perform 32 32 (Some observer) my_device (OpWrite 0x10 0xFF) "" (MkCaller 0 [], fresh [] ∅)))
    [EvOpStart "FluentRegisterTarget" "dut" "Write(0x00000010, 0x000000ff): ";
     EvOpEnd "FluentRegisterTarget" "dut"].
Proof.
  apply (proj1 (proj2 (lifecycle_events 32 32 my_device (OpWrite 0x10 0xFF) ""
                         (MkCaller 0 []) (fresh [] ∅)))).
  - reflexivity.
  - exact I.
Defined.

(** C2 as it was stated fails on a target whose [write] throws a value that
    is not a [std::exception]: the value reaches the caller, and the
    interposer has received the start event and nothing else. *)
Lemma lifecycle_events_counterexample :
  fst (perform 32 32 (Some observer) foreign_thrower (OpWrite 0x10 0xFF) ""
         (MkCaller 0 [], fresh [] tt)) = Thrown (NonStd 42) /\
  ipos (snd (snd (perform 32 32 (Some observer) foreign_thrower (OpWrite 0x10 0xFF) ""
                    (MkCaller 0 [], fresh [] tt))))
  = [EvOpStart "FluentRegisterTarget" "dut" "Write(0x00000010, 0x000000ff): "] /\
  ~ one_start_one_terminal
      (fst (perform 32 32 (Some observer) foreign_thrower (OpWrite 0x10 0xFF) ""
              (MkCaller 0 [], fresh [] tt)))
      (ipos (snd (snd (perform 32 32 (Some observer) foreign_thrower (OpWrite 0x10 0xFF) ""
                         (MkCaller 0 [], fresh [] tt))))).
Proof.
  split; [reflexivity|]. split; [reflexivity|].
  intros (_ & _ & Herr & _). vm_compute in Herr. discriminate.
Qed.


(** Every event of a wrapped operation carries the same two leading
    arguments: the literal ["FluentRegisterTarget"] and the target's name. *)
Lemma events_leading_arguments
    {St : Type} (aw dw : Z) (target : Target.t St) (o : Operation St)
    (msg : string) (c : Caller) (w : World (list Event) St) :
  exists news,
    ipos (snd (snd (perform aw dw (Some observer) target o msg (c, w)))) = ipos w ++ news /\
    Forall (fun e => event_domain e = "FluentRegisterTarget" /\
                     event_instance e = Target.getName target) news.
Proof.
  destruct (lifecycle_holds aw dw target o msg c w) as [(op_msg & extras & Hex & Hshape) _].
  eexists. split; [exact Hshape|].
  constructor; [by split|]. apply Forall_app. split.
  - eapply Forall_impl; [exact Hex|]. by intros e [v ->].
  - destruct (fst (perform _ _ _ _ _ _ _)) as [a|[cls what|p]|why]; simpl;
      repeat constructor.
Qed.

(** C5, at an input where it fails: on a target whose [getDomain()] is
    ["MyDevice"] and whose [getName()] is ["dut"], the hooks invoked for
    [seq], [step] and [null] receive ["dut"] as instance and the fixed
    string ["FluentRegisterTarget"] as domain, which is not what
    [getDomain()] returns. *)
Theorem hooks_receive_fixed_domain :
  Target.getDomain my_device = "MyDevice" /\
  Target.getName my_device = "dut" /\
  ipos (snd ((FluentRegisterTarget.seq (Some observer) my_device "bring-up" ;;
              FluentRegisterTarget.step (Some observer) my_device "reset" ;;
              FluentRegisterTarget.null (Some observer) my_device "")
             (fresh [] ∅)))
  = [EvSeq "FluentRegisterTarget" "dut" "bring-up";
     EvStep "FluentRegisterTarget" "dut" "reset";
     EvOpStart "FluentRegisterTarget" "dut" "Null(): ";
     EvOpEnd "FluentRegisterTarget" "dut"] /\
  "FluentRegisterTarget" <> Target.getDomain my_device.
Proof. repeat split; try reflexivity. discriminate. Qed.

(** ** compRead with spans of different sizes *)

(** C3, as amended: in a build in which [assert] is active, every call of
    the base class's [compRead] with [addresses.size() != out_data.size()]
    stops at the failed assertion before any I/O: the target is left as it
    was, by whatever [read] the target has, so no read is performed, and no
    element of [out_data] is modified.  No exception is raised.  Through
    the wrapper the interposer has by then received the start event and one
    extra event per address, and receives neither an end nor an error
    event. *)
Theorem compRead_size_mismatch
    {St : Type} (aw dw : Z) (write : Z -> Z -> M St unit) (read : Z -> M St Z)
    (name domain msg : string) (addresses out_data : list Z) :
  length addresses <> length out_data ->
  (forall st,
      IRegisterTarget.compRead false read addresses (out_data, st)
      = (Stopped AssertionFailed, (out_data, st))) /\
  (forall log st,
      IRegisterTarget.compRead false (Recording.rread read) addresses (out_data, (log, st))
      = (Stopped AssertionFailed, (out_data, (log, st)))) /\
  (forall w : World (list Event) St,
      FluentRegisterTarget.compRead aw dw (Some observer)
        (IRegisterTarget.derive aw dw false write read name domain) addresses msg (out_data, w)
      = (Stopped AssertionFailed,
         (out_data,
          MkWorld
            (ipos w ++
             EvOpStart "FluentRegisterTarget" name
               ("CompRead(" +:+ fmt_dec (Z.of_nat (length addresses)) +:+ ".., "
                  +:+ fmt_dec (Z.of_nat (length out_data)) +:+ "..): " +:+ msg)
             :: map (fun a => EvOpExtra "FluentRegisterTarget" name (fmt_hex aw a)) addresses)
            (env w)))).
Proof.
  intros Hne.
  assert (Hcmp : (length addresses =? length out_data)%nat = false)
    by (by apply Nat.eqb_neq).
  assert (Hbase : forall St' (r : Z -> M St' Z) st,
             IRegisterTarget.compRead false r addresses (out_data, st)
             = (Stopped AssertionFailed, (out_data, st))).
  { intros St' r st. unfold IRegisterTarget.compRead. cbn [fst snd negb andb]. by rewrite Hcmp. }
  split; [apply Hbase|]. split; [intros; apply Hbase|].
  intros [ip [st clk]].
  unfold FluentRegisterTarget.compRead, FluentRegisterTarget.opStart,
    FluentRegisterTarget.invoke, FluentRegisterTarget.on_span_tgt.
  unfold_monad. cbn. rewrite opExtra_addresses_run. cbn.
  rewrite Hbase. cbn. by rewrite <- app_assoc.
Qed.

Lemma compRead_size_mismatch_witness :
  Target.compRead (dut false) [1; 2; 3] ([0; 0], ([], ∅))
  = (Stopped AssertionFailed, ([0; 0], ([], ∅))).
Proof.
  apply (proj1 (proj2 (compRead_size_mismatch 32 32
                         SimpleDummyRegisterTarget.write SimpleDummyRegisterTarget.read
                         "dut" "IRegisterTarget" "" [1; 2; 3] [0; 0] ltac:(simpl; lia)))).
Defined.

(** C3 as it was stated fails on three addresses and a span of two: with
    [assert] active the call does not throw, it stops at the assertion; and
    in a build with NDEBUG the loop runs, three reads are issued before the
    store beyond the span's end. *)
Lemma compRead_size_mismatch_counterexample :
  ~ rejected_by_exception
      (Target.compRead (dut false) [1; 2; 3] ([0; 0], ([], ∅))) [0; 0] ([], ∅) /\
  ~ rejected_by_exception
      (Target.compRead (dut true) [1; 2; 3] ([0; 0], ([], ∅))) [0; 0] ([], ∅) /\
  fst (snd (snd (Target.compRead (dut true) [1; 2; 3] ([0; 0], ([], ∅)))))
  = [ARead 1; ARead 2; ARead 3].
Proof.
  split; [|split].
  - intros [[e He] _]. vm_compute in He. discriminate.
  - intros [[e He] _]. vm_compute in He. discriminate.
  - vm_compute. reflexivity.
Qed.

(** ** writeVerify *)

(** When the write and the read-back return, [writeVerify] fails exactly
    when the masked read-back differs from the masked data, with the
    exception built from [data & mask], [mask] and the value read. *)
Lemma writeVerify_outcome
    {I St : Type} (aw dw : Z) (interposer : option (IFluentRegisterTargetInterposer.t I))
    (target : Target.t St) addr data mask msg (w : World I St) st' v st'' :
  Target.write target addr data (tgt (env w)) = (Returned tt, st') ->
  Target.read target addr st' = (Returned v, st'') ->
  fst (FluentRegisterTarget.writeVerify aw dw interposer target addr data mask msg w)
  = if Z.land v mask =? Z.land data mask then Returned tt
    else Thrown (WriteVerifyFailureException dw (Z.land data mask) mask v).
Proof.
  intros Hwrite Hread. unfold_ops. unfold_monad.
  destruct interposer; cbn; rewrite Hwrite; cbn; rewrite Hread; cbn.
  all: destruct (Z.land v mask =? Z.land data mask); reflexivity.
Qed.

(** The value [writeVerify] passes to the target's [write] is [data]. *)
Lemma writeVerify_first_access
    {I St : Type} (aw dw : Z) (ndebug : bool) (name domain : string)
    (interposer : option (IFluentRegisterTargetInterposer.t I))
    (write : Z -> Z -> M St unit) (read : Z -> M St Z)
    addr data mask msg (w : World I (list Access * St)) :
  exists rest,
    fst (tgt (env (snd (FluentRegisterTarget.writeVerify aw dw interposer
                          (Recording.make write read aw dw ndebug name domain)
                          addr data mask msg w))))
    = fst (tgt (env w)) ++ AWrite addr data :: rest.
Proof.
  destruct w as [ip [[log st] clk]].
  destruct interposer; unfold_ops; unfold_monad; cbn -[Recording.rwrite Recording.rread];
    rewrite rwrite_run; destruct (write addr data st) as [[[]|[]|] st'];
    cbn -[Recording.rwrite Recording.rread]; rewrite ?rread_run;
    try destruct (read addr st') as [[v|[]|] st'']; cbn;
    try destruct (Z.land v mask =? Z.land data mask); cbn;
    rewrite <- ?app_assoc; eexists; reflexivity.
Qed.

(** C1, at an input where it fails: [writeVerify(0x10, 0xFF, 0x0F)] on the
    dummy target returns, having issued the write of [0xFF], the unmasked
    data, and one read; register [0x10] then holds [0xFF], not
    [0xFF & 0x0F = 0x0F]. *)
Theorem writeVerify_writes_unmasked_data :
  fst (FluentRegisterTarget.writeVerify 32 32 (Some observer) (dut false)
         0x10 0xFF 0x0F "" (fresh [] ([], ∅))) = Returned tt /\
  fst (tgt (env (snd (FluentRegisterTarget.writeVerify 32 32 (Some observer) (dut false)
                        0x10 0xFF 0x0F "" (fresh [] ([], ∅))))))
  = [AWrite 0x10 0xFF; ARead 0x10] /\
  register_value
    (snd (tgt (env (snd (FluentRegisterTarget.writeVerify 32 32 (Some observer) (dut false)
                           0x10 0xFF 0x0F "" (fresh [] ([], ∅)))))))
    0x10 = 0xFF /\
  Z.land 0xFF 0x0F = 0x0F.
Proof. repeat split; vm_compute; reflexivity. Qed.


(** ** readVerify and pollRead *)

Section Verify.
Context {I St : Type}.
Variables (aw dw : Z) (interposer : option (IFluentRegisterTargetInterposer.t I)).
Variable target : Target.t St.

Lemma readVerify_outcome addr expected mask msg (w : World I St) v st' :
  Target.read target addr (tgt (env w)) = (Returned v, st') ->
  fst (FluentRegisterTarget.readVerify aw dw interposer target addr expected mask msg w)
  = if Z.land v mask =? Z.land expected mask then Returned tt
    else Thrown (ReadVerifyFailureException dw (Z.land expected mask) mask v).
Proof.
  intros Hread. unfold_ops. unfold_monad. destruct interposer; cbn; rewrite Hread; cbn.
  all: destruct (Z.land v mask =? Z.land expected mask); reflexivity.
Qed.

Lemma pollRead_outcome (poller : CPoller St) addr expected mask msg (w : World I St) :
  fst (FluentRegisterTarget.pollRead aw dw interposer target poller addr expected mask msg w)
  = match poller (FluentRegisterTarget.poll_check target addr mask (Z.land expected mask))
                 (0, env w) with
    | (Returned true, _) => Returned tt
    | (Returned false, (reg_val, _)) =>
        Thrown (PollReadTimeoutException dw (Z.land expected mask) mask reg_val)
    | (Thrown e, _) => Thrown e
    | (Stopped why, _) => Stopped why
    end.
Proof.
  unfold_ops. unfold_monad. destruct interposer; cbn.
  all: destruct (poller _ (0, env w)) as [[[]|[]|] [rv e']]; reflexivity.
Qed.

(** One evaluation of the check functor: one read, stored in [reg_val] and
    compared under the mask. *)
Lemma poll_check_run addr mask expected_val rv (e : Env St) :
  FluentRegisterTarget.poll_check target addr mask expected_val (rv, e)
  = match Target.read target addr (tgt e) with
    | (Returned v, st') => (Returned (Z.land v mask =? expected_val), (v, MkEnv st' (clock e)))
    | (Thrown x, st') => (Thrown x, (rv, MkEnv st' (clock e)))
    | (Stopped why, st') => (Stopped why, (rv, MkEnv st' (clock e)))
    end.
Proof.
  unfold FluentRegisterTarget.poll_check. unfold_monad. cbn.
  destruct (Target.read target addr (tgt e)) as [[v|x|why] st']; reflexivity.
Qed.

Lemma poll_last_read (p : BasicPoller.t) addr mask expected_val fuel start s b rv e' :
  BasicPoller.poll p fuel start (FluentRegisterTarget.poll_check target addr mask expected_val) s
  = (Returned b, (rv, e')) ->
  b = (Z.land rv mask =? expected_val) /\
  exists st, Target.read target addr st = (Returned rv, tgt e').
Proof.
  revert s. induction fuel as [|fuel IH]; intros [rv0 e]; [discriminate|].
  cbn [BasicPoller.poll]. unfold bind at 1. rewrite poll_check_run.
  destruct (Target.read target addr (tgt e)) as [[v|x|why] st'] eqn:Hread; [|discriminate..].
  destruct (Z.land v mask =? expected_val) eqn:Hcmp.
  - unfold ret. intros [= <- <- <-]. split; [by rewrite Hcmp|]. eauto.
  - unfold_monad. cbn [fst snd].
    match goal with |- context [if ?c then _ else _] => destruct c end.
    + apply IH.
    + intros [= <- <- <-]. split; [by rewrite Hcmp|]. eauto.
Qed.

Lemma call_last_read (p : BasicPoller.t) addr mask expected_val fuel s :
  last_read_decides target addr mask expected_val
    (BasicPoller.call p fuel (FluentRegisterTarget.poll_check target addr mask expected_val) s).
Proof.
  intros b Hb.
  destruct (BasicPoller.call p fuel _ s) as [r [rv e']] eqn:Hrun.
  simpl in Hb. subst r. simpl.
  unfold BasicPoller.call in Hrun. unfold_monad. eapply poll_last_read. exact Hrun.
Qed.
End Verify.

(** ** BasicPoller *)

Section Poller.
Context {Σ : Type} `{Clock Σ}.
Variable p : BasicPoller.t.
Variable fn : M Σ bool.

Lemma traced_run log s :
  traced fn (log, s) = (fst (fn s), (log ++ [(fst (fn s), now (snd (fn s)))], snd (fn s))).
Proof. unfold traced. cbn [fst snd]. by destruct (fn s). Qed.

Lemma poll_traced fuel start log s :
  poll_trace log (BasicPoller.poll p (S fuel) start (traced fn) (log, s)).
Proof.
  revert log s. induction fuel as [|fuel IH]; intros log s.
  - cbn [BasicPoller.poll]. unfold bind at 1. rewrite traced_run.
    destruct (fn s) as [[[]|e|why] s']; unfold_monad; cbn [fst snd].
    + exists [], (Returned true), (now s'). by repeat split.
    + match goal with |- context [if ?c then _ else _] => destruct c end.
      * exists [], (Returned false), (now s'). repeat split; [constructor | by right].
      * exists [], (Returned false), (now s'). repeat split; [constructor | by left].
    + exists [], (Thrown e), (now s'). by repeat split.
    + exists [], (Stopped why), (now s'). by repeat split.
  - cbn [BasicPoller.poll]. unfold bind at 1. rewrite traced_run.
    destruct (fn s) as [[[]|e|why] s']; unfold_monad; cbn [fst snd].
    + exists [], (Returned true), (now s'). by repeat split.
    + match goal with |- context [if ?c then _ else _] => destruct c end.
      * destruct (IH (log ++ [(Returned false, now s')])
                    (sleep_for (BasicPoller.wait_delay p) s'))
          as (earlier & last & t & Hlog & Hearlier & Hlast).
        exists ((Returned false, now s') :: earlier), last, t. split; [|split].
        -- etransitivity; [exact Hlog|]. by rewrite <- app_assoc.
        -- by constructor.
        -- exact Hlast.
      * exists [], (Returned false), (now s'). repeat split; [constructor | by left].
    + exists [], (Thrown e), (now s'). by repeat split.
    + exists [], (Stopped why), (now s'). by repeat split.
Qed.

Lemma call_traced fuel log s :
  poll_trace log (BasicPoller.call p (S fuel) (traced fn) (log, s)).
Proof. unfold BasicPoller.call. unfold_monad. apply poll_traced. Qed.
End Poller.

(** ** readVerify and pollRead, and what they throw *)

Lemma readVerify_passes
    {I St : Type} (aw dw : Z) (interposer : option (IFluentRegisterTargetInterposer.t I))
    (target : Target.t St) addr expected mask msg (w : World I St) x st' :
  Target.read target addr (tgt (env w)) = (Thrown x, st') ->
  fst (FluentRegisterTarget.readVerify aw dw interposer target addr expected mask msg w)
  = Thrown x.
Proof.
  intros Hread. unfold_ops. unfold_monad.
  destruct interposer; cbn; rewrite Hread; cbn; by destruct x.
Qed.

(** C6, as amended: [readVerify] reads once and, when the read returns [v],
    throws the verify-mismatch exception if and only if
    [(v & mask) != (expected & mask)], and returns otherwise; what the read
    throws passes through.  [pollRead] hands its poller a check functor
    that, at each evaluation, reads the register once, keeps the value
    read and yields [(v & mask) == (expected & mask)]; it returns when the
    poller reports success, throws the poll-timeout exception when the
    poller reports a timeout, and lets through what the poller throws.
    With a [BasicPoller] the evaluations before the last one all yielded
    false, and the verdict is the masked comparison of the value last
    read from the target: polling goes on until a read matches under the
    mask or the time is up.  The exceptions keep a message and nothing
    else: it is formatted from [expected & mask], the actual value under
    the mask and the actual value in full; the mask itself is not in it. *)
Theorem readVerify_pollRead_masked_compare
    {I St : Type} (aw dw : Z) (interposer : option (IFluentRegisterTargetInterposer.t I))
    (target : Target.t St) (addr expected mask : Z) (msg : string) (w : World I St) :
  (forall v st',
      Target.read target addr (tgt (env w)) = (Returned v, st') ->
      fst (FluentRegisterTarget.readVerify aw dw interposer target addr expected mask msg w)
      = if Z.land v mask =? Z.land expected mask then Returned tt
        else Thrown (ReadVerifyFailureException dw (Z.land expected mask) mask v)) /\
  (forall x st',
      Target.read target addr (tgt (env w)) = (Thrown x, st') ->
      fst (FluentRegisterTarget.readVerify aw dw interposer target addr expected mask msg w)
      = Thrown x) /\
  (exists check : M (Z * Env St) bool,
      reads_and_compares target addr mask (Z.land expected mask) check /\
      (forall poller : CPoller St,
          fst (FluentRegisterTarget.pollRead aw dw interposer target poller
                 addr expected mask msg w)
          = match poller check (0, env w) with
            | (Returned true, _) => Returned tt
            | (Returned false, (reg_val, _)) =>
                Thrown (PollReadTimeoutException dw (Z.land expected mask) mask reg_val)
            | (Thrown e, _) => Thrown e
            | (Stopped why, _) => Stopped why
            end) /\
      (forall (p : BasicPoller.t) (fuel : nat),
          last_read_decides target addr mask (Z.land expected mask)
            (BasicPoller.call p fuel check (0, env w))) /\
      (forall (p : BasicPoller.t) (fuel : nat) (log : list (Outcome bool * Z)),
          poll_trace log (BasicPoller.call p (S fuel) (traced check) (log, (0, env w))))) /\
  (forall expected_val full_actual,
      ReadVerifyFailureException dw expected_val mask full_actual
      = StdExc ReadVerifyFailure
          ("ReadVerify mismatch! Expected:" +:+ fmt_hex dw expected_val
             +:+ " Got:" +:+ fmt_hex dw (Z.land full_actual mask)
             +:+ " (" +:+ fmt_hex dw full_actual +:+ ")") /\
      PollReadTimeoutException dw expected_val mask full_actual
      = StdExc PollReadTimeout
          ("PollRead timeout! Expected:" +:+ fmt_hex dw expected_val
             +:+ " Got:" +:+ fmt_hex dw (Z.land full_actual mask)
             +:+ " (" +:+ fmt_hex dw full_actual +:+ ")")).
Proof.
  split; [|split; [|split]].
  - intros v st'. apply readVerify_outcome.
  - intros x st'. apply readVerify_passes.
  - exists (FluentRegisterTarget.poll_check target addr mask (Z.land expected mask)).
    split; [apply poll_check_reads_and_compares|]. split; [|split].
    + intros poller. apply pollRead_outcome.
    + intros p fuel. apply call_last_read.
    + intros p fuel log. apply call_traced.
  - intros expected_val full_actual. split; reflexivity.
Qed.

Lemma readVerify_pollRead_masked_compare_witness :
  fst (FluentRegisterTarget.readVerify 32 32 (Some observer) my_device 0x10 0x05 0x0F ""
         (fresh [] {[ 0x10 := 0x34 ]}))
  = Thrown (ReadVerifyFailureException 32 0x05 0x0F 0x34).
Proof.
  exact (proj1 (readVerify_pollRead_masked_compare 32 32 (Some observer) my_device
                  0x10 0x05 0x0F "" (fresh [] {[ 0x10 := 0x34 ]}))
               0x34 {[ 0x10 := 0x34 ]} eq_refl).
Defined.

(** C6 as it was stated has the poll-timeout error carry the mask.  Two
    polls of a register holding 0 for the expected value 1, one under the
    mask 0x01 and one under the mask 0x03, time out with one and the same
    exception: the mask cannot be told from it. *)
Lemma poll_timeout_without_mask_counterexample :
  fst (FluentRegisterTarget.pollRead 32 32 (Some observer) my_device
         (BasicPoller.call (BasicPoller.Build 0 10 0) 2) 0x10 1 0x01 "" (fresh [] ∅))
  = Thrown (StdExc PollReadTimeout
              "PollRead timeout! Expected:0x00000001 Got:0x00000000 (0x00000000)") /\
  fst (FluentRegisterTarget.pollRead 32 32 (Some observer) my_device
         (BasicPoller.call (BasicPoller.Build 0 10 0) 2) 0x10 1 0x03 "" (fresh [] ∅))
  = Thrown (StdExc PollReadTimeout
              "PollRead timeout! Expected:0x00000001 Got:0x00000000 (0x00000000)") /\
  0x01 <> 0x03.
Proof. split; [reflexivity|]. split; [reflexivity|]. discriminate. Qed.

Lemma sleep_for_zero_env {St} (e : Env St) : sleep_for 0 e = e.
Proof. destruct e. unfold sleep_for; simpl. f_equal. lia. Qed.

Lemma call_initial_delay_shift {St} (d wd t : Z) fuel (fn : M (Env St) bool) (e : Env St) :
  BasicPoller.call (BasicPoller.Build d wd t) fuel fn e
  = BasicPoller.call (BasicPoller.Build 0 wd t) fuel fn (sleep_for d e).
Proof.
  unfold BasicPoller.call. unfold_monad. cbn [BasicPoller.initial_delay].
  by rewrite sleep_for_zero_env.
Qed.

(** With an initial delay of 100, rechecks every 10 and a timeout of 50, a
    predicate that never holds is evaluated 5 times, first at time 100, and
    the poller gives up at time 150; with a timeout of 0 it is evaluated
    once. *)
Example poll_times_out :
  BasicPoller.call (BasicPoller.Build 100 10 50) 10 (traced never) ([], MkEnv tt 0)
  = (Returned false,
     ([(Returned false, 100); (Returned false, 110); (Returned false, 120);
       (Returned false, 130); (Returned false, 140)], MkEnv tt 150)).
Proof. reflexivity. Qed.

Example poll_zero_timeout :
  BasicPoller.call (BasicPoller.Build 0 10 0) 10 (traced never) ([], MkEnv tt 0)
  = (Returned false, ([(Returned false, 0)], MkEnv tt 10)).
Proof. reflexivity. Qed.



(** ** What readVerify and pollRead do to the target *)

(** A read of the dummy target may create the entry it reads; the values of
    the registers stay. *)
Lemma simple_dummy_read_same addr regs :
  same_registers regs (snd (SimpleDummyRegisterTarget.read addr regs)).
Proof.
  intros a. unfold SimpleDummyRegisterTarget.read, register_value.
  destruct (regs !! addr) eqn:E; simpl; [done|].
  destruct (decide (a = addr)) as [->|Hne].
  - by rewrite lookup_insert_eq, E.
  - by rewrite lookup_insert_ne.
Qed.

Section ReadsOnly.
Context {I St : Type}.
Variables (aw dw : Z) (ndebug : bool) (name domain : string).
Variable interposer : option (IFluentRegisterTargetInterposer.t I).
Variables (write : Z -> Z -> M St unit) (read : Z -> M St Z).
Local Abbreviation target := (Recording.make write read aw dw ndebug name domain).

Variable R : St -> St -> Prop.
Hypothesis R_refl : forall st, R st st.
Hypothesis R_trans : forall a b c, R a b -> R b c -> R a c.
Hypothesis R_read : forall addr st, R st (snd (read addr st)).

Lemma reads_only_refl addr s : reads_only R addr s s.
Proof. split; [exists 0%nat; simpl; by rewrite app_nil_r | apply R_refl]. Qed.

Lemma reads_only_step addr log st s' :
  reads_only R addr (log ++ [ARead addr], snd (read addr st)) s' ->
  reads_only R addr (log, st) s'.
Proof.
  intros [[k Hk] HR]. simpl in *. split.
  - exists (S k). simpl. rewrite Hk. by rewrite <- app_assoc.
  - eapply R_trans; [apply R_read | exact HR].
Qed.

Lemma readVerify_reads_only addr expected mask msg (w : World I (list Access * St)) :
  reads_only R addr (tgt (env w))
    (tgt (env (snd (FluentRegisterTarget.readVerify aw dw interposer target
                      addr expected mask msg w)))).
Proof.
  destruct w as [ip [[log st] clk]].
  apply reads_only_step.
  destruct interposer; unfold_ops; unfold_monad; cbn -[Recording.rread]; rewrite rread_run;
    destruct (read addr st) as [[v|[]|] st']; cbn.
  all: try (destruct (Z.land v mask =? Z.land expected mask); cbn).
  all: apply reads_only_refl.
Qed.

Lemma poll_check_recording addr mask expected_val rv log st clk :
  FluentRegisterTarget.poll_check target addr mask expected_val (rv, MkEnv (log, st) clk)
  = match read addr st with
    | (Returned v, st') =>
        (Returned (Z.land v mask =? expected_val), (v, MkEnv (log ++ [ARead addr], st') clk))
    | (Thrown x, st') => (Thrown x, (rv, MkEnv (log ++ [ARead addr], st') clk))
    | (Stopped why, st') => (Stopped why, (rv, MkEnv (log ++ [ARead addr], st') clk))
    end.
Proof.
  unfold FluentRegisterTarget.poll_check. unfold_monad. cbn -[Recording.rread].
  rewrite rread_run.
  destruct (read addr st) as [[v|x|why] st']; reflexivity.
Qed.

Lemma poll_reads_only (p : BasicPoller.t) addr mask expected_val fuel start s :
  reads_only R addr (tgt (snd s))
    (tgt (snd (snd (BasicPoller.poll p fuel start
                      (FluentRegisterTarget.poll_check target addr mask expected_val) s)))).
Proof.
  revert s. induction fuel as [|fuel IH]; intros [rv [[log st] clk]]; [apply reads_only_refl|].
  cbn [BasicPoller.poll]. unfold bind at 1. rewrite poll_check_recording.
  apply reads_only_step. cbn [fst snd tgt].
  destruct (read addr st) as [[v|x|why] st']; cbn [fst snd tgt]; try apply reads_only_refl.
  destruct (Z.land v mask =? expected_val); [apply reads_only_refl|].
  unfold_monad. cbn [fst snd].
  match goal with |- context [if ?c then _ else _] => destruct c end.
  - apply (IH (v, MkEnv (log ++ [ARead addr], st') (clk + Z.max 0 (BasicPoller.wait_delay p)))).
  - apply reads_only_refl.
Qed.

Lemma pollRead_reads_only (p : BasicPoller.t) fuel addr expected mask msg
    (w : World I (list Access * St)) :
  reads_only R addr (tgt (env w))
    (tgt (env (snd (FluentRegisterTarget.pollRead aw dw interposer target
                      (BasicPoller.call p fuel) addr expected mask msg w)))).
Proof.
  pose proof (poll_reads_only p addr mask (Z.land expected mask) fuel
                (now (sleep_for (BasicPoller.initial_delay p) (env w)))
                (0, sleep_for (BasicPoller.initial_delay p) (env w))) as Hp.
  destruct w as [ip [[log st] clk]].
  unfold_ops. unfold BasicPoller.call. unfold_monad. cbn in *.
  destruct interposer; cbn.
  all: match goal with |- context [BasicPoller.poll ?a ?b ?c ?d ?e] =>
         destruct (BasicPoller.poll a b c d e) as [[[]|[]|] [rv e']] end; cbn in *; exact Hp.
Qed.
End ReadsOnly.

(** C10, as amended: [readVerify], and [pollRead] with a [BasicPoller],
    never invoke [write] on the underlying target: on a target that logs its
    accesses the log gains reads of [addr] and nothing else, on success and
    on the error paths alike.  The target's state is therefore changed by
    the target's own [read] only: every relation between states of the
    device that is reflexive, transitive and respected by each read holds
    between the state before and the state after; a target whose [read]
    leaves its state alone is left unchanged. *)
Theorem verify_and_poll_issue_reads_only
    {I St : Type} (aw dw : Z) (ndebug : bool) (name domain : string)
    (interposer : option (IFluentRegisterTargetInterposer.t I))
    (write : Z -> Z -> M St unit) (read : Z -> M St Z)
    (addr expected mask : Z) (msg : string) (w : World I (list Access * St)) :
  (forall R : St -> St -> Prop,
      (forall st, R st st) ->
      (forall a b c, R a b -> R b c -> R a c) ->
      (forall a st, R st (snd (read a st))) ->
      reads_only R addr (tgt (env w))
        (tgt (env (snd (FluentRegisterTarget.readVerify aw dw interposer
                          (Recording.make write read aw dw ndebug name domain)
                          addr expected mask msg w)))) /\
      forall (p : BasicPoller.t) (fuel : nat),
        reads_only R addr (tgt (env w))
          (tgt (env (snd (FluentRegisterTarget.pollRead aw dw interposer
                            (Recording.make write read aw dw ndebug name domain)
                            (BasicPoller.call p fuel) addr expected mask msg w))))) /\
  ((forall a st, snd (read a st) = st) ->
   snd (tgt (env (snd (FluentRegisterTarget.readVerify aw dw interposer
                         (Recording.make write read aw dw ndebug name domain)
                         addr expected mask msg w))))
   = snd (tgt (env w)) /\
   forall (p : BasicPoller.t) (fuel : nat),
     snd (tgt (env (snd (FluentRegisterTarget.pollRead aw dw interposer
                           (Recording.make write read aw dw ndebug name domain)
                           (BasicPoller.call p fuel) addr expected mask msg w))))
     = snd (tgt (env w))).
Proof.
  split.
  - intros R Hrefl Htrans Hread. split.
    + by apply readVerify_reads_only.
    + intros p fuel. by apply pollRead_reads_only.
  - intros Hpure.
    assert (Hread : forall a st, st = snd (read a st)) by (intros; by rewrite Hpure).
    split.
    + symmetry.
      apply (readVerify_reads_only aw dw ndebug name domain interposer write read eq
               (fun _ => eq_refl) (fun a b c => @eq_trans _ a b c) Hread).
    + intros p fuel. symmetry.
      apply (pollRead_reads_only aw dw ndebug name domain interposer write read eq
               (fun _ => eq_refl) (fun a b c => @eq_trans _ a b c) Hread).
Qed.

(** On the dummy target a failing [readVerify] issues one read and leaves
    every register with its value. *)
Lemma verify_and_poll_issue_reads_only_witness :
  reads_only same_registers 0x10 ([], {[ 0x20 := 7 ]})
    (tgt (env (snd (FluentRegisterTarget.readVerify 32 32 (Some observer) (dut false)
                      0x10 0x05 0x0F "" (fresh [] ([], {[ 0x20 := 7 ]})))))).
Proof.
  apply (proj1 (verify_and_poll_issue_reads_only 32 32 false "dut" "IRegisterTarget"
                  (Some observer)
                  SimpleDummyRegisterTarget.write SimpleDummyRegisterTarget.read
                  0x10 0x05 0x0F "" (fresh [] ([], {[ 0x20 := 7 ]})))
               same_registers).
  - intros st a. reflexivity.
  - intros a b c Hab Hbc x. rewrite Hbc. apply Hab.
  - intros a st. apply simple_dummy_read_same.
Defined.

(** C10 as it was stated, that the target's state is unchanged, fails on a
    target whose read has an effect of its own: a [readVerify] that
    succeeds on a FIFO port takes a word out of the queue; and on the dummy
    target it creates the entry of a register not written before. *)
Lemma verify_changes_target_counterexample :
  fst (FluentRegisterTarget.readVerify 32 32 (Some observer) fifo_port 0 5 0xFF ""
         (fresh [] [5; 6])) = Returned tt /\
  tgt (env (snd (FluentRegisterTarget.readVerify 32 32 (Some observer) fifo_port 0 5 0xFF ""
                   (fresh [] [5; 6])))) = [6] /\
  tgt (env (snd (FluentRegisterTarget.readVerify 32 32 (Some observer) fifo_port 0 5 0xFF ""
                   (fresh [] [5; 6])))) <> [5; 6] /\
  tgt (env (snd (FluentRegisterTarget.readVerify 32 32 (Some observer) my_device 0x10 0 0xFF ""
                   (fresh [] ∅)))) <> ∅.
Proof.
  split; [reflexivity|]. split; [reflexivity|]. split; [discriminate|].
  intros Heq. apply (f_equal (fun m : gmap Z Z => m !! 0x10)) in Heq.
  vm_compute in Heq. discriminate.
Qed.

(** * Further properties *)

(** ** readModifyWrite *)

Lemma rmw_value_bits dw old new_data mask :
  0 <= dw ->
  merged_bits dw old new_data mask
    (wrap dw (Z.lor (wrap dw (Z.land old (Z.lnot mask))) (Z.land new_data mask))).
Proof.
  intros Hdw. unfold merged_bits, wrap. split.
  - apply Z.mod_pos_bound. by apply Z.pow_pos_nonneg.
  - intros i Hi.
    rewrite Z.mod_pow2_bits_low by lia.
    rewrite Z.lor_spec, Z.mod_pow2_bits_low by lia.
    rewrite !Z.land_spec, Z.lnot_spec by lia.
    destruct (Z.testbit mask i), (Z.testbit new_data i), (Z.testbit old i); reflexivity.
Qed.

(** X1: the base class's [readModifyWrite] issues one read and then one
    write of the same address; the value written is a [DataType] value with
    the bits of [new_data] where [mask] is set and the bits of the value
    read elsewhere; the outcome is that of the write.  If the read does not
    return, no write is issued. *)
Theorem readModifyWrite_merges
    {St : Type} (dw : Z) (write : Z -> Z -> M St unit) (read : Z -> M St Z)
    (addr new_data mask : Z) (log : list Access) (st : St) :
  0 <= dw ->
  match read addr st with
  | (Returned old, st') =>
      exists w,
        merged_bits dw old new_data mask w /\
        IRegisterTarget.readModifyWrite dw (Recording.rwrite write) (Recording.rread read)
          addr new_data mask (log, st)
        = (fst (write addr w st'), (log ++ [ARead addr; AWrite addr w], snd (write addr w st')))
  | (Thrown e, st') =>
      IRegisterTarget.readModifyWrite dw (Recording.rwrite write) (Recording.rread read)
        addr new_data mask (log, st)
      = (Thrown e, (log ++ [ARead addr], st'))
  | (Stopped why, st') =>
      IRegisterTarget.readModifyWrite dw (Recording.rwrite write) (Recording.rread read)
        addr new_data mask (log, st)
      = (Stopped why, (log ++ [ARead addr], st'))
  end.
Proof.
  intros Hdw. unfold IRegisterTarget.readModifyWrite, bind. rewrite rread_run.
  destruct (read addr st) as [[old|e|why] st']; cbn [fst snd]; try reflexivity.
  eexists. split; [by apply rmw_value_bits|].
  rewrite rwrite_run. by rewrite <- app_assoc.
Qed.

Lemma readModifyWrite_merges_witness :
  exists w,
    merged_bits 32 0xA5 0x0F 0x3C w /\
    IRegisterTarget.readModifyWrite 32
      (Recording.rwrite SimpleDummyRegisterTarget.write)
      (Recording.rread SimpleDummyRegisterTarget.read)
      0x10 0x0F 0x3C ([], {[ 0x10 := 0xA5 ]})
    = (fst (SimpleDummyRegisterTarget.write 0x10 w {[ 0x10 := 0xA5 ]}),
       ([] ++ [ARead 0x10; AWrite 0x10 w],
        snd (SimpleDummyRegisterTarget.write 0x10 w {[ 0x10 := 0xA5 ]}))).
Proof.
  exact (readModifyWrite_merges 32 SimpleDummyRegisterTarget.write
           SimpleDummyRegisterTarget.read 0x10 0x0F 0x3C [] {[ 0x10 := 0xA5 ]}
           ltac:(lia)).
Defined.

(** ** Batch accesses of the base class *)

Lemma for_from_ext {Σ} (from count : nat) (body body' : nat -> M Σ unit) s :
  (forall i s', body i s' = body' i s') ->
  for_from from count body s = for_from from count body' s.
Proof.
  intros Hb. revert from s. induction count as [|count IH]; intros from s; [reflexivity|].
  simpl. unfold bind. rewrite Hb. destruct (body' from s) as [[[]|e|why] s']; auto.
Qed.

Lemma for_each_single_writes {St} (write : Z -> Z -> M St unit) (ads : list (Z * Z)) s :
  for_each ads (fun ad => write (fst ad) (snd ad)) s = single_writes write ads s.
Proof.
  revert s. induction ads as [|ad ads IH]; intros s; [reflexivity|].
  simpl. apply bind_ext. intros _ s'. apply IH.
Qed.

Lemma element_address_fifo aw addr i :
  0 <= addr < 2 ^ aw -> element_address aw addr 0 i = addr.
Proof. intros H. unfold element_address. rewrite Z.mul_0_l, Z.add_0_r. by apply Z.mod_small. Qed.

(** X2: a FIFO access is the sequential access with increment 0: for an
    address of the address type, the base class's [fifoWrite(addr, data)]
    and [seqWrite(addr, data, 0)] are the same on every target and state,
    and so are [fifoRead(addr, out)] and [seqRead(addr, out, 0)]. *)
Theorem fifo_is_seq_with_increment_zero
    {St : Type} (aw : Z) (write : Z -> Z -> M St unit) (read : Z -> M St Z)
    (fifo_addr : Z) :
  valid_width aw ->
  0 <= fifo_addr < 2 ^ aw ->
  (forall data st,
      IRegisterTarget.fifoWrite write fifo_addr data st
      = IRegisterTarget.seqWrite aw write fifo_addr data 0 st) /\
  (forall out_data st,
      IRegisterTarget.fifoRead read fifo_addr (out_data, st)
      = IRegisterTarget.seqRead aw read fifo_addr 0 (out_data, st)).
Proof.
  intros Haw Haddr. split.
  - intros data st. unfold IRegisterTarget.fifoWrite, IRegisterTarget.seqWrite.
    etransitivity; [|symmetry;
      exact (for_from_single_writes write
               (IRegisterTarget.seq_address aw fifo_addr 0) data [] st)].
    cbn [length Nat.add].
    assert (H : forall (f : nat -> Z) s, (forall i, f i = fifo_addr) ->
              for_each data (fun d => write fifo_addr d) s
              = single_writes write (imap (fun i d => (f i, d)) data) s).
    { clear. induction data as [|d data IH]; intros f s Hf; [reflexivity|].
      simpl. rewrite Hf. apply bind_ext. intros _ s'. apply (IH (f ∘ S)).
      intros i. apply Hf. }
    apply H. intros i. rewrite seq_address_spec by done.
    by apply element_address_fifo.
  - intros out_data st. unfold IRegisterTarget.fifoRead, IRegisterTarget.seqRead.
    apply for_from_ext. intros i s'.
    rewrite seq_address_spec by done. by rewrite element_address_fifo.
Qed.

Lemma fifo_is_seq_with_increment_zero_witness :
  IRegisterTarget.fifoWrite SimpleDummyRegisterTarget.write 0x40 [1; 2; 3] ∅
  = IRegisterTarget.seqWrite 32 SimpleDummyRegisterTarget.write 0x40 [1; 2; 3] 0 ∅.
Proof.
  apply (proj1 (fifo_is_seq_with_increment_zero 32 SimpleDummyRegisterTarget.write
                  SimpleDummyRegisterTarget.read 0x40
                  ltac:(right; right; left; reflexivity) ltac:(lia))).
Defined.

(** Single reads into consecutive indices that fit the span. *)
Lemma single_reads_stored {St} (read : Z -> M St Z) (addrs : list Z) from out st :
  (from + length addrs <= length out)%nat ->
  untouched_outside from (length addrs) out
    (fst (snd (single_reads read from addrs (out, st)))) /\
  ((forall a s, fst (read a s) <> Stopped OutOfRange) ->
   fst (single_reads read from addrs (out, st)) <> Stopped OutOfRange).
Proof.
  revert from out st. induction addrs as [|a addrs IH]; intros from out st Hfit.
  - split; [|discriminate]. by split.
  - simpl in Hfit. cbn [single_reads]. unfold bind, beside, zoom, span_store. cbn [fst snd].
    pose proof (fun H : forall a s, fst (read a s) <> Stopped OutOfRange => H a st) as Hr.
    destruct (read a st) as [[v|e|why] st']; cbn [fst snd] in *.
    + destruct (Nat.ltb_spec from (length out)) as [_|Hge]; [|lia]. cbn [fst snd].
      destruct (IH (S from) (<[from := v]> out) st') as [[Hlen Hsame] Hoor].
      { rewrite length_insert. lia. }
      rewrite length_insert in Hlen. split; [|exact Hoor].
      split; [exact Hlen|].
      intros j Hj. cbn [length] in Hj. rewrite Hsame by lia.
      apply list_lookup_insert_ne. lia.
    + split; [|discriminate]. by split.
    + split; [|intros H [= ->]; by apply (Hr H)]. by split.
Qed.

Lemma take_constant_map {A B} (b : B) (l : list A) (k : nat) :
  (k <= length l)%nat -> map (fun _ => b) (take k l) = replicate k b.
Proof.
  revert k. induction l as [|x l IH]; intros [|k] Hk; simpl in *; try reflexivity; [lia|].
  f_equal. apply IH. lia.
Qed.

(** On a logging target: the elements from the number of reads issued on
    are as they were. *)
Lemma single_reads_recorded_untouched {St} (read : Z -> M St Z)
    (addrs : list Z) from out log st :
  let run := single_reads (Recording.rread read) from addrs (out, (log, st)) in
  exists k,
    (k <= length addrs)%nat /\
    fst (snd (snd run)) = log ++ map ARead (take k addrs) /\
    untouched_outside from k out (fst (snd run)) /\
    (fst run = Returned tt -> k = length addrs).
Proof.
  intros run. subst run. revert from out log st.
  induction addrs as [|a addrs IH]; intros from out log st.
  - exists 0%nat. cbn. rewrite app_nil_r. by repeat split.
  - cbn [single_reads]. unfold bind, beside, zoom, span_store. cbn [fst snd].
    rewrite rread_run.
    destruct (read a st) as [[v|e|why] st']; cbn [fst snd].
    + destruct (Nat.ltb_spec from (length out)) as [Hlt|Hge]; cbn [fst snd].
      * destruct (IH (S from) (<[from := v]> out) (log ++ [ARead a]) st')
          as (k & Hk & Hlog & [Hlen Hsame] & Hret).
        exists (S k). split; [simpl; lia|]. split; [|split; [split|]].
        -- rewrite Hlog. cbn. by rewrite <- app_assoc.
        -- by rewrite Hlen, length_insert.
        -- intros j Hj. rewrite Hsame by lia. apply list_lookup_insert_ne. lia.
        -- intros H. simpl. f_equal. by apply Hret.
      * exists 1%nat. split; [simpl; lia|]. split; [reflexivity|].
        split; [by split|discriminate].
    + exists 1%nat. split; [simpl; lia|]. split; [reflexivity|].
      split; [by split|discriminate].
    + exists 1%nat. split; [simpl; lia|]. split; [reflexivity|].
      split; [by split|discriminate].
Qed.

(** X3: the base class's [seqRead] and [fifoRead] go through the caller's
    span from its first element and stay within it.  On a target that logs
    its accesses: with [k] reads issued, [k] at most the size of the span
    and equal to it if the call returns, the elements from index [k] on are
    as they were, whatever made the call stop.  On every target the call
    never indexes outside the span, so it stops out of range only if a read
    of the target does. *)
Theorem seqRead_fifoRead_span
    {St : Type} (aw : Z) (read : Z -> M St Z) (start_addr increment fifo_addr : Z)
    (out_data : list Z) (log : list Access) (st : St) :
  (let run := IRegisterTarget.seqRead aw (Recording.rread read) start_addr increment
                (out_data, (log, st)) in
   exists k,
     (k <= length out_data)%nat /\
     length (fst (snd (snd run))) = (length log + k)%nat /\
     untouched_outside 0 k out_data (fst (snd run)) /\
     (fst run = Returned tt -> k = length out_data)) /\
  (let run := IRegisterTarget.fifoRead (Recording.rread read) fifo_addr
                (out_data, (log, st)) in
   exists k,
     (k <= length out_data)%nat /\
     fst (snd (snd run)) = log ++ replicate k (ARead fifo_addr) /\
     untouched_outside 0 k out_data (fst (snd run)) /\
     (fst run = Returned tt -> k = length out_data)) /\
  ((forall a s, fst (read a s) <> Stopped OutOfRange) ->
   fst (IRegisterTarget.seqRead aw read start_addr increment (out_data, st))
     <> Stopped OutOfRange /\
   fst (IRegisterTarget.fifoRead read fifo_addr (out_data, st)) <> Stopped OutOfRange).
Proof.
  assert (Hs : forall St' (r : Z -> M St' Z) s,
             IRegisterTarget.seqRead aw r start_addr increment (out_data, s)
             = single_reads r 0
                 (map (IRegisterTarget.seq_address aw start_addr increment)
                      (seq 0 (length out_data))) (out_data, s)).
  { intros St' r s. unfold IRegisterTarget.seqRead. cbn [fst].
    exact (for_from_single_reads r _ _ 0 _). }
  assert (Hf : forall St' (r : Z -> M St' Z) s,
             IRegisterTarget.fifoRead r fifo_addr (out_data, s)
             = single_reads r 0
                 (map (fun _ => fifo_addr) (seq 0 (length out_data))) (out_data, s)).
  { intros St' r s. unfold IRegisterTarget.fifoRead. cbn [fst].
    exact (for_from_single_reads r (fun _ => fifo_addr) _ 0 _). }
  split; [|split].
  - cbv zeta. rewrite Hs.
    destruct (single_reads_recorded_untouched read
                (map (IRegisterTarget.seq_address aw start_addr increment)
                     (seq 0 (length out_data))) 0 out_data log st)
      as (k & Hk & Hlog & Hun & Hret).
    rewrite length_map, length_seq in Hk, Hret.
    exists k. split; [exact Hk|]. split; [|split; [exact Hun|exact Hret]].
    rewrite Hlog, length_app, length_map, length_take, length_map, length_seq. lia.
  - cbv zeta. rewrite Hf.
    destruct (single_reads_recorded_untouched read
                (map (fun _ => fifo_addr) (seq 0 (length out_data))) 0 out_data log st)
      as (k & Hk & Hlog & Hun & Hret).
    rewrite length_map, length_seq in Hk, Hret.
    exists k. split; [exact Hk|]. split; [|split; [exact Hun|exact Hret]].
    rewrite Hlog. f_equal. rewrite firstn_map, map_map.
    apply take_constant_map. by rewrite length_seq.
  - intros H. rewrite Hs, Hf.
    destruct (single_reads_stored read
                (map (IRegisterTarget.seq_address aw start_addr increment)
                     (seq 0 (length out_data))) 0 out_data st) as [_ H1'].
    { rewrite length_map, length_seq. lia. }
    destruct (single_reads_stored read
                (map (fun _ => fifo_addr) (seq 0 (length out_data))) 0 out_data st) as [_ H2'].
    { rewrite length_map, length_seq. lia. }
    split; [by apply H1' | by apply H2'].
Qed.

Lemma seqRead_fifoRead_span_witness :
  fst (IRegisterTarget.seqRead 32 SimpleDummyRegisterTarget.read 0x100 4 ([7; 7; 7], ∅))
    <> Stopped OutOfRange.
Proof.
  apply (proj2 (proj2 (seqRead_fifoRead_span 32 SimpleDummyRegisterTarget.read
                         0x100 4 0 [7; 7; 7] [] ∅))).
  intros a s. unfold SimpleDummyRegisterTarget.read. by destruct (s !! a).
Defined.

Lemma map_nth_seq (pre l : list Z) :
  map (fun i => nth i (pre ++ l) 0) (seq (length pre) (length l)) = l.
Proof.
  revert pre. induction l as [|x l IH]; intros pre; [reflexivity|].
  simpl. rewrite app_nth2, Nat.sub_diag by lia. simpl. f_equal.
  specialize (IH (pre ++ [x])). rewrite length_app, <- app_assoc in IH. simpl in IH.
  by rewrite Nat.add_1_r in IH.
Qed.

Lemma compRead_loop_single_reads {St} (read : Z -> M St Z) (addresses : list Z) s :
  for_from 0 (length addresses)
    (fun i => v <- beside (read (nth i addresses 0)) ;; span_store i v) s
  = single_reads read 0 addresses s.
Proof.
  etransitivity;
    [exact (for_from_single_reads read (fun i => nth i addresses 0) _ 0 s)|].
  f_equal. exact (map_nth_seq [] addresses).
Qed.

(** Single reads that run past the end of the span. *)
Lemma single_reads_overrun {St} (read : Z -> M St Z) (addrs : list Z) from out st :
  (forall a s, exists v s', read a s = (Returned v, s')) ->
  (from <= length out < from + length addrs)%nat ->
  fst (single_reads read from addrs (out, st)) = Stopped OutOfRange.
Proof.
  intros Hread. revert from out st. induction addrs as [|a addrs IH]; intros from out st Hlen.
  - simpl in Hlen. lia.
  - simpl in Hlen. cbn [single_reads]. unfold bind, beside, zoom, span_store. cbn [fst snd].
    destruct (Hread a st) as (v & st' & ->). cbn [fst snd].
    destruct (Nat.ltb_spec from (length out)) as [Hlt|Hge]; [|reflexivity].
    cbn [fst snd]. apply IH. rewrite length_insert. lia.
Qed.

(** X4: the base class's [compRead] on spans of equal size, in either kind
    of build, is the sequence of single reads [out[0] = read(addresses[0]);
    out[1] = read(addresses[1]); ...]; the assertion does not fire and no
    index leaves the span.  In a build with NDEBUG and fewer addresses than
    the span has elements, the elements beyond the addresses are left as
    they were; with more addresses than elements and reads that return, the
    loop stores beyond the end of the span. *)
Theorem compRead_element_by_element
    {St : Type} (read : Z -> M St Z) (addresses out_data : list Z) (st : St) :
  (length addresses = length out_data ->
   forall ndebug,
     IRegisterTarget.compRead ndebug read addresses (out_data, st)
     = single_reads read 0 addresses (out_data, st) /\
     untouched_outside 0 (length addresses) out_data
       (fst (snd (IRegisterTarget.compRead ndebug read addresses (out_data, st)))) /\
     ((forall a s, fst (read a s) <> Stopped OutOfRange) ->
      fst (IRegisterTarget.compRead ndebug read addresses (out_data, st))
        <> Stopped OutOfRange)) /\
  ((length addresses < length out_data)%nat ->
   untouched_outside 0 (length addresses) out_data
     (fst (snd (IRegisterTarget.compRead true read addresses (out_data, st))))) /\
  ((length out_data < length addresses)%nat ->
   (forall a s, exists v s', read a s = (Returned v, s')) ->
   fst (IRegisterTarget.compRead true read addresses (out_data, st)) = Stopped OutOfRange).
Proof.
  assert (Hnd : IRegisterTarget.compRead true read addresses (out_data, st)
                = single_reads read 0 addresses (out_data, st)).
  { unfold IRegisterTarget.compRead. cbn [negb andb]. apply compRead_loop_single_reads. }
  split; [|split].
  - intros Hlen ndebug.
    assert (Heq : IRegisterTarget.compRead ndebug read addresses (out_data, st)
                  = single_reads read 0 addresses (out_data, st)).
    { unfold IRegisterTarget.compRead. cbn [fst].
      replace (length addresses =? length out_data)%nat with true
        by (symmetry; apply Nat.eqb_eq; exact Hlen).
      cbn [negb]. rewrite andb_false_r.
      apply compRead_loop_single_reads. }
    destruct (single_reads_stored read addresses 0 out_data st) as [Hst Hoor]; [lia|].
    rewrite Heq. split; [reflexivity|]. split; [exact Hst|exact Hoor].
  - intros Hlt. rewrite Hnd.
    by destruct (single_reads_stored read addresses 0 out_data st) as [Hst _]; [lia|].
  - intros Hgt Hread. rewrite Hnd. apply single_reads_overrun; [done|lia].
Qed.

Lemma compRead_element_by_element_witness :
  IRegisterTarget.compRead false SimpleDummyRegisterTarget.read [1; 2] ([7; 7], ∅)
  = single_reads SimpleDummyRegisterTarget.read 0 [1; 2] ([7; 7], ∅) /\
  untouched_outside 0 1 [7; 7]
    (fst (snd (IRegisterTarget.compRead true SimpleDummyRegisterTarget.read [1] ([7; 7], ∅)))) /\
  fst (IRegisterTarget.compRead true SimpleDummyRegisterTarget.read [1; 2] ([7], ∅))
  = Stopped OutOfRange.
Proof.
  split; [|split].
  - apply (compRead_element_by_element SimpleDummyRegisterTarget.read [1; 2] [7; 7] ∅).
    reflexivity.
  - apply (compRead_element_by_element SimpleDummyRegisterTarget.read [1] [7; 7] ∅).
    simpl. lia.
  - apply (compRead_element_by_element SimpleDummyRegisterTarget.read [1; 2] [7] ∅).
    + simpl. lia.
    + intros a s. unfold SimpleDummyRegisterTarget.read.
      destruct (s !! a); eexists _, _; reflexivity.
Defined.

(** ** The dummy target as a register file *)

Lemma dummy_write_run addr data regs :
  SimpleDummyRegisterTarget.write addr data regs = (Returned tt, <[addr := data]> regs).
Proof. reflexivity. Qed.

Lemma dummy_write_value addr data regs a :
  register_value (<[addr := data]> regs) a
  = if decide (a = addr) then data else register_value regs a.
Proof.
  unfold register_value. destruct (decide (a = addr)) as [->|Hne].
  - by rewrite lookup_insert_eq.
  - by rewrite lookup_insert_ne.
Qed.

Lemma dummy_read_run addr regs :
  exists regs',
    SimpleDummyRegisterTarget.read addr regs = (Returned (register_value regs addr), regs') /\
    same_registers regs regs' /\
    regs' !! addr = Some (register_value regs addr).
Proof.
  unfold SimpleDummyRegisterTarget.read, register_value.
  destruct (regs !! addr) as [rv|] eqn:E.
  - exists regs. by repeat split.
  - exists (<[addr := 0]> regs). split; [reflexivity|]. split.
    + intros a. unfold register_value. destruct (decide (a = addr)) as [->|Hne].
      * by rewrite lookup_insert_eq, E.
      * by rewrite lookup_insert_ne.
    + by rewrite lookup_insert_eq.
Qed.

Lemma dummy_single_writes (addr_data : list (Z * Z)) regs :
  exists regs',
    single_writes SimpleDummyRegisterTarget.write addr_data regs = (Returned tt, regs') /\
    (forall a, a ∉ map fst addr_data -> register_value regs' a = register_value regs a) /\
    (NoDup (map fst addr_data) ->
     forall a d, (a, d) ∈ addr_data -> register_value regs' a = d).
Proof.
  revert regs. induction addr_data as [|[a0 d0] rest IH]; intros regs.
  - exists regs. split; [reflexivity|]. split; [done|]. intros _ a d H. by apply elem_of_nil in H.
  - destruct (IH (<[a0 := d0]> regs)) as (regs' & Hrun & Hout & Hin).
    exists regs'. split; [|split].
    + cbn [single_writes fst snd]. unfold bind. rewrite dummy_write_run. exact Hrun.
    + intros a Ha. cbn [map fst] in Ha. apply not_elem_of_cons in Ha as [Hne Ha].
      rewrite (Hout a Ha), dummy_write_value. by destruct (decide (a = a0)).
    + intros Hnd a d Had. cbn [map fst] in Hnd. apply NoDup_cons in Hnd as [Hfresh Hnd].
      apply elem_of_cons in Had as [[= -> ->]|Had].
      * rewrite (Hout a0 Hfresh), dummy_write_value. by destruct (decide (a0 = a0)).
      * by apply (Hin Hnd).
Qed.

Lemma dummy_single_reads (addrs : list Z) from out regs :
  (from + length addrs <= length out)%nat ->
  exists regs',
    single_reads SimpleDummyRegisterTarget.read from addrs (out, regs)
    = (Returned tt,
       (take from out ++ map (register_value regs) addrs ++ drop (from + length addrs) out,
        regs')) /\
    same_registers regs regs'.
Proof.
  revert from out regs. induction addrs as [|a addrs IH]; intros from out regs Hfit.
  - exists regs. split; [|done]. cbn [single_reads map length app]. unfold ret.
    by rewrite Nat.add_0_r, take_drop.
  - cbn [length] in Hfit.
    destruct (dummy_read_run a regs) as (regs1 & Hread & Hsame1 & _).
    destruct (IH (S from) (<[from := register_value regs a]> out) regs1) as (regs' & Hrun & Hsame).
    { rewrite length_insert. lia. }
    exists regs'. split.
    + cbn [single_reads]. unfold bind, beside, zoom, span_store. cbn [fst snd].
      rewrite Hread. cbn [fst snd].
      destruct (Nat.ltb_spec from (length out)) as [Hlt|Hge]; [|lia]. cbn [fst snd].
      rewrite Hrun. do 2 f_equal.
      assert (Hx : (<[from := register_value regs a]> out) !! from
                   = Some (register_value regs a))
        by (apply list_lookup_insert_eq; lia).
      rewrite (take_S_r _ _ _ Hx), take_insert_ge by lia.
      rewrite drop_insert_lt by lia.
      rewrite <- app_assoc. cbn [map app length]. f_equal. f_equal. f_equal.
      * apply map_ext. intros a'. apply Hsame1.
      * f_equal. lia.
    + intros a'. by rewrite Hsame, Hsame1.
Qed.

Lemma NoDup_fst_lookup (addr_data : list (Z * Z)) (regs : gmap Z Z) :
  (forall a d, (a, d) ∈ addr_data -> register_value regs a = d) ->
  map (register_value regs) (map fst addr_data) = map snd addr_data.
Proof.
  intros H. rewrite map_map. apply map_ext_in. intros [a d] Hin. cbn [fst snd].
  apply H. by apply list_elem_of_In.
Qed.

Lemma seqWrite_single_writes {St} aw (write : Z -> Z -> M St unit) start_addr increment data st :
  valid_width aw ->
  IRegisterTarget.seqWrite aw write start_addr data increment st
  = single_writes write
      (imap (fun i d => (element_address aw start_addr increment i, d)) data) st.
Proof.
  intros Haw. unfold IRegisterTarget.seqWrite.
  etransitivity;
    [exact (for_from_single_writes write
              (IRegisterTarget.seq_address aw start_addr increment) data [] st)|].
  f_equal. apply imap_ext. intros i x _. simpl. by rewrite seq_address_spec.
Qed.

Lemma seqRead_single_reads {St} aw (read : Z -> M St Z) start_addr increment out_data st :
  valid_width aw ->
  IRegisterTarget.seqRead aw read start_addr increment (out_data, st)
  = single_reads read 0
      (map (element_address aw start_addr increment) (seq 0 (length out_data)))
      (out_data, st).
Proof.
  intros Haw. unfold IRegisterTarget.seqRead. simpl.
  etransitivity;
    [exact (for_from_single_reads read
              (IRegisterTarget.seq_address aw start_addr increment) _ 0 _)|].
  f_equal. apply map_ext. intros i. by apply seq_address_spec.
Qed.

Lemma imap_fst_snd (addr : nat -> Z) (data : list Z) from :
  map fst (imap (fun i d => (addr (from + i)%nat, d)) data)
  = map addr (seq from (length data)) /\
  map snd (imap (fun i d => (addr (from + i)%nat, d)) data) = data.
Proof.
  revert from. induction data as [|d data IH]; intros from; [done|].
  cbn [imap map fst snd length seq]. rewrite Nat.add_0_r.
  destruct (IH (S from)) as [IH1 IH2].
  assert (E : imap ((fun i d0 => (addr (from + i)%nat, d0)) ∘ S) data
              = imap (fun i d0 => (addr (S from + i)%nat, d0)) data).
  { apply imap_ext. intros i x _. simpl. f_equal. f_equal. lia. }
  rewrite E, IH1, IH2. done.
Qed.

(** X5: a composite write followed by a composite read of the same
    addresses on the dummy target returns the data written, in order, when
    no address occurs twice; both calls return, in either kind of build,
    and the read leaves every register's value as the write left it. *)
Theorem dummy_compWrite_compRead_round_trip
    (aw dw : Z) (ndebug : bool) (name : string)
    (addr_data : list (Z * Z)) (out_data : list Z) (regs : gmap Z Z) :
  NoDup (map fst addr_data) ->
  length out_data = length addr_data ->
  let T := SimpleDummyRegisterTarget.make aw dw ndebug name in
  exists regs1 regs2,
    Target.compWrite T addr_data regs = (Returned tt, regs1) /\
    Target.compRead T (map fst addr_data) (out_data, regs1)
    = (Returned tt, (map snd addr_data, regs2)) /\
    same_registers regs1 regs2.
Proof.
  intros Hnd Hlen T.
  destruct (dummy_single_writes addr_data regs) as (regs1 & Hw & _ & Hin).
  destruct (dummy_single_reads (map fst addr_data) 0 out_data regs1) as (regs2 & Hr & Hsame).
  { rewrite length_map. lia. }
  exists regs1, regs2. split; [|split; [|exact Hsame]].
  - subst T. cbn [Target.compWrite SimpleDummyRegisterTarget.make IRegisterTarget.derive].
    unfold IRegisterTarget.compWrite. by rewrite for_each_single_writes.
  - subst T. cbn [Target.compRead SimpleDummyRegisterTarget.make IRegisterTarget.derive].
    unfold IRegisterTarget.compRead. cbn [fst].
    replace (length (map fst addr_data) =? length out_data)%nat with true
      by (symmetry; apply Nat.eqb_eq; rewrite length_map; lia).
    cbn [negb]. rewrite andb_false_r.
    rewrite compRead_loop_single_reads, Hr.
    rewrite length_map, Nat.add_0_l, <- Hlen, drop_all, app_nil_r. cbn [take app].
    by rewrite (NoDup_fst_lookup addr_data regs1 (Hin Hnd)).
Qed.

Lemma dummy_compWrite_compRead_round_trip_witness :
  exists regs1 regs2,
    Target.compWrite (SimpleDummyRegisterTarget.make 32 32 false "dummy")
      [(8, 1); (4, 2)] ∅ = (Returned tt, regs1) /\
    Target.compRead (SimpleDummyRegisterTarget.make 32 32 false "dummy")
      (map fst [(8, 1); (4, 2)]) ([0; 0], regs1)
    = (Returned tt, (map snd [(8, 1); (4, 2)], regs2)) /\
    same_registers regs1 regs2.
Proof.
  apply (dummy_compWrite_compRead_round_trip 32 32 false "dummy" [(8, 1); (4, 2)] [0; 0] ∅).
  - apply (bool_decide_unpack _). vm_compute. exact I.
  - reflexivity.
Defined.

(** X6: a sequential write followed by a sequential read with the same
    start address and increment on the dummy target returns the data
    written when the element addresses, taken in the address width, are
    pairwise different; both calls return. *)
Theorem dummy_seqWrite_seqRead_round_trip
    (aw dw : Z) (ndebug : bool) (name : string)
    (start_addr increment : Z) (data out_data : list Z) (regs : gmap Z Z) :
  valid_width aw ->
  NoDup (map (element_address aw start_addr increment) (seq 0 (length data))) ->
  length out_data = length data ->
  let T := SimpleDummyRegisterTarget.make aw dw ndebug name in
  exists regs1 regs2,
    Target.seqWrite T start_addr data increment regs = (Returned tt, regs1) /\
    Target.seqRead T start_addr increment (out_data, regs1) = (Returned tt, (data, regs2)) /\
    same_registers regs1 regs2.
Proof.
  intros Haw Hnd Hlen T.
  set (ads := imap (fun i d => (element_address aw start_addr increment (0 + i), d)) data).
  destruct (imap_fst_snd (element_address aw start_addr increment) data 0) as [Hfst Hsnd].
  fold ads in Hfst, Hsnd.
  destruct (dummy_single_writes ads regs) as (regs1 & Hw & _ & Hin).
  destruct (dummy_single_reads (map fst ads) 0 out_data regs1) as (regs2 & Hr & Hsame).
  { rewrite Hfst, length_map, length_seq. lia. }
  exists regs1, regs2. split; [|split; [|exact Hsame]].
  - subst T. cbn [Target.seqWrite SimpleDummyRegisterTarget.make IRegisterTarget.derive].
    by rewrite seqWrite_single_writes.
  - subst T. cbn [Target.seqRead SimpleDummyRegisterTarget.make IRegisterTarget.derive].
    rewrite seqRead_single_reads by done. rewrite Hlen, <- Hfst, Hr.
    replace (length (map fst ads)) with (length out_data)
      by (rewrite Hfst, length_map, length_seq; lia).
    rewrite Nat.add_0_l, drop_all, app_nil_r. cbn [take app].
    rewrite (NoDup_fst_lookup ads regs1); [by rewrite Hsnd|].
    apply Hin. by rewrite Hfst.
Qed.

Lemma element_addresses_NoDup aw start_addr increment n :
  0 < increment -> 0 <= start_addr -> start_addr + increment * Z.of_nat n <= 2 ^ aw ->
  NoDup (map (element_address aw start_addr increment) (seq 0 n)).
Proof.
  intros Hinc Hstart Hfit.
  apply NoDup_fmap_2_strong; [|apply NoDup_seq].
  intros i j Hi Hj. apply elem_of_seq in Hi, Hj. unfold element_address.
  rewrite !Z.mod_small by nia. nia.
Qed.

Lemma dummy_seqWrite_seqRead_round_trip_witness :
  exists regs1 regs2,
    Target.seqWrite (SimpleDummyRegisterTarget.make 32 32 false "dummy")
      0x100 [7; 8; 9] 4 ∅ = (Returned tt, regs1) /\
    Target.seqRead (SimpleDummyRegisterTarget.make 32 32 false "dummy")
      0x100 4 ([0; 0; 0], regs1) = (Returned tt, ([7; 8; 9], regs2)) /\
    same_registers regs1 regs2.
Proof.
  apply (dummy_seqWrite_seqRead_round_trip 32 32 false "dummy" 0x100 4 [7; 8; 9] [0; 0; 0] ∅).
  - right; right; left; reflexivity.
  - apply element_addresses_NoDup; simpl; lia.
  - reflexivity.
Defined.

Lemma dummy_fifo_writes (addr : Z) (data : list Z) regs :
  exists regs',
    for_each data (fun d => SimpleDummyRegisterTarget.write addr d) regs = (Returned tt, regs') /\
    register_value regs' addr = List.last data (register_value regs addr).
Proof.
  revert regs. induction data as [|d data IH]; intros regs.
  - by exists regs.
  - destruct (IH (<[addr := d]> regs)) as (regs' & Hrun & Hval).
    exists regs'. split.
    + cbn [for_each]. unfold bind. rewrite dummy_write_run. exact Hrun.
    + rewrite Hval, dummy_write_value. destruct (decide (addr = addr)); [|done].
      destruct data as [|z data]; [reflexivity|].
      change (List.last (d :: z :: data) (register_value regs addr))
        with (List.last (z :: data) (register_value regs addr)).
      generalize (register_value regs addr). clear. revert z.
      induction data as [|y data IH]; intros z v; [reflexivity|].
      change (List.last (y :: data) d = List.last (y :: data) v). apply IH.
Qed.

(** X7: the dummy target keeps no queue behind a FIFO address: after
    [fifoWrite(addr, data)], a [fifoRead(addr, out)] returns with every
    element of the span holding the last element of [data] (the register's
    earlier value if [data] is empty). *)
Theorem dummy_fifoRead_returns_last_written
    (aw dw : Z) (ndebug : bool) (name : string)
    (fifo_addr : Z) (data out_data : list Z) (regs : gmap Z Z) :
  let T := SimpleDummyRegisterTarget.make aw dw ndebug name in
  exists regs1 regs2,
    Target.fifoWrite T fifo_addr data regs = (Returned tt, regs1) /\
    Target.fifoRead T fifo_addr (out_data, regs1)
    = (Returned tt,
       (replicate (length out_data) (List.last data (register_value regs fifo_addr)), regs2)) /\
    same_registers regs1 regs2.
Proof.
  intros T.
  destruct (dummy_fifo_writes fifo_addr data regs) as (regs1 & Hw & Hval).
  destruct (dummy_single_reads (map (fun _ => fifo_addr) (seq 0 (length out_data)))
              0 out_data regs1) as (regs2 & Hr & Hsame).
  { rewrite length_map, length_seq. lia. }
  exists regs1, regs2. split; [exact Hw|]. split; [|exact Hsame].
  subst T. cbn [Target.fifoRead SimpleDummyRegisterTarget.make IRegisterTarget.derive].
  unfold IRegisterTarget.fifoRead. cbn [fst].
  etransitivity;
    [exact (for_from_single_reads SimpleDummyRegisterTarget.read
              (fun _ => fifo_addr) _ 0 _)|].
  assert (Hrep : forall (v : Z) n from, map (fun _ : nat => v) (seq from n) = replicate n v).
  { clear. intros v. induction n as [|n IH]; intros from; [reflexivity|].
    cbn [seq map replicate]. f_equal. apply IH. }
  rewrite Hr, length_map, length_seq, Nat.add_0_l, drop_all, app_nil_r.
  rewrite map_map, Hval, Hrep. reflexivity.
Qed.

Lemma dummy_read_after_write aw dw ndebug name addr data regs :
  Target.read (SimpleDummyRegisterTarget.make aw dw ndebug name) addr (<[addr := data]> regs)
  = (Returned data, <[addr := data]> regs).
Proof.
  cbn [Target.read SimpleDummyRegisterTarget.make IRegisterTarget.derive].
  unfold SimpleDummyRegisterTarget.read. by rewrite lookup_insert_eq.
Qed.

Lemma writeVerify_target_state
    {I St : Type} (aw dw : Z) (interposer : option (IFluentRegisterTargetInterposer.t I))
    (target : Target.t St) addr data mask msg (w : World I St) st' v st'' :
  Target.write target addr data (tgt (env w)) = (Returned tt, st') ->
  Target.read target addr st' = (Returned v, st'') ->
  tgt (env (snd (FluentRegisterTarget.writeVerify aw dw interposer target addr data mask msg w)))
  = st''.
Proof.
  intros Hwrite Hread. unfold_ops. unfold_monad.
  destruct interposer; cbn; rewrite Hwrite; cbn; rewrite Hread; cbn.
  all: destruct (Z.land v mask =? Z.land data mask); reflexivity.
Qed.

(** X8: on the dummy target [writeVerify(addr, data, mask)] always returns,
    whatever the mask, and leaves the register holding all of [data], the
    other registers as they were; a [readVerify(addr, data, mask')] that
    follows returns for every mask. *)
Theorem dummy_writeVerify_then_readVerify
    {I : Type} (aw dw : Z) (ndebug : bool) (name : string)
    (interposer : option (IFluentRegisterTargetInterposer.t I))
    (addr data mask mask' : Z) (msg msg' : string) (w : World I (gmap Z Z)) :
  let T := SimpleDummyRegisterTarget.make aw dw ndebug name in
  let r := FluentRegisterTarget.writeVerify aw dw interposer T addr data mask msg w in
  fst r = Returned tt /\
  (forall a, register_value (tgt (env (snd r))) a
             = if decide (a = addr) then data else register_value (tgt (env w)) a) /\
  fst (FluentRegisterTarget.readVerify aw dw interposer T addr data mask' msg' (snd r))
  = Returned tt.
Proof.
  intros T r.
  assert (Hst : tgt (env (snd r)) = <[addr := data]> (tgt (env w))).
  { subst r. apply (writeVerify_target_state aw dw interposer T addr data mask msg w
                      (<[addr := data]> (tgt (env w))) data); [reflexivity|].
    subst T. apply dummy_read_after_write. }
  split; [|split].
  - subst r.
    rewrite (writeVerify_outcome aw dw interposer T addr data mask msg w
               (<[addr := data]> (tgt (env w))) data (<[addr := data]> (tgt (env w)))).
    + by rewrite Z.eqb_refl.
    + reflexivity.
    + subst T. apply dummy_read_after_write.
  - intros a. rewrite Hst. apply dummy_write_value.
  - rewrite (readVerify_outcome aw dw interposer T addr data mask' msg' (snd r)
               data (<[addr := data]> (tgt (env w)))).
    + by rewrite Z.eqb_refl.
    + rewrite Hst. subst T. apply dummy_read_after_write.
Qed.

(** ** What is reported through [opExtra] *)

Section Extras.
Context {St : Type}.
Variables (aw dw : Z) (target : Target.t St).

Ltac extras_runs :=
  rewrite ?opExtra_span_run, ?opExtra_addresses_run, ?opExtra_pairs_run.

Ltac extras_start :=
  unfold_ops; unfold_monad; cbn; extras_runs; cbn.

Ltac extras_done :=
  eexists; cbn; rewrite <- ?app_assoc, ?app_nil_r, ?map_app, ?map_map; cbn;
  rewrite <- ?app_assoc; reflexivity.

(** X9: the observer's log of one operation is the start event, the
    values reported through [opExtra], and the terminal event.  The values
    are: nothing for [null], [delay], [write], [readModifyWrite],
    [writeVerify], [readVerify] and [pollRead]; every data value of
    [seqWrite] and [fifoWrite] and every address-data pair of [compWrite],
    reported whether or not the target's call returns; for [read] the value
    read and for [seqRead] and [fifoRead] every element of the span,
    reported only if the target's call returns; for [compRead] every
    address, and then every element of the span if the call returns. *)
Theorem opExtra_reports (o : Operation St) (msg : string) (c : Caller)
    (w : World (list Event) St) :
  let name := Target.getName target in
  let run := perform aw dw (Some observer) target o msg (c, w) in
  exists op_msg,
    ipos (snd (snd run))
    = ipos w ++ EvOpStart "FluentRegisterTarget" name op_msg
        :: map (EvOpExtra "FluentRegisterTarget" name)
             (extras_before aw dw o ++
              match fst run with
              | Returned _ => extras_after dw o (fst (snd run))
              | _ => []
              end)
        ++ terminal_events name (fst run).
Proof.
  intros name run. subst name run.
  destruct o as [|d|a d|a|a d m|a ds inc|a inc|a ds|a|ads|addrs|a d m|a e m|p a e m].
  - extras_start. extras_done.
  - extras_start. extras_done.
  - extras_start.
    destruct (Target.write target a d (tgt (env w))) as [[[]|[cls what|x]|why] st'];
      cbn; extras_done.
  - extras_start.
    destruct (Target.read target a (tgt (env w))) as [[v|[cls what|x]|why] st'];
      cbn; extras_done.
  - extras_start.
    destruct (Target.readModifyWrite target a d m (tgt (env w)))
      as [[[]|[cls what|x]|why] st']; cbn; extras_done.
  - extras_start.
    destruct (Target.seqWrite target a ds inc (tgt (env w)))
      as [[[]|[cls what|x]|why] st']; cbn; extras_done.
  - extras_start.
    destruct (Target.seqRead target a inc (out_span c, tgt (env w)))
      as [[[]|[cls what|x]|why] [out' st']]; cbn; extras_runs; cbn; extras_done.
  - extras_start.
    destruct (Target.fifoWrite target a ds (tgt (env w)))
      as [[[]|[cls what|x]|why] st']; cbn; extras_done.
  - extras_start.
    destruct (Target.fifoRead target a (out_span c, tgt (env w)))
      as [[[]|[cls what|x]|why] [out' st']]; cbn; extras_runs; cbn; extras_done.
  - extras_start.
    destruct (Target.compWrite target ads (tgt (env w)))
      as [[[]|[cls what|x]|why] st']; cbn; extras_done.
  - extras_start.
    destruct (Target.compRead target addrs (out_span c, tgt (env w)))
      as [[[]|[cls what|x]|why] [out' st']]; cbn; extras_runs; cbn; extras_done.
  - extras_start.
    destruct (Target.write target a d (tgt (env w))) as [[[]|[cls what|x]|why] st']; cbn.
    2-4: extras_done.
    destruct (Target.read target a st') as [[v|[cls what|x]|why] st'']; cbn.
    2-4: extras_done.
    destruct (Z.land v m =? Z.land d m); cbn; extras_done.
  - extras_start.
    destruct (Target.read target a (tgt (env w))) as [[v|[cls what|x]|why] st']; cbn.
    2-4: extras_done.
    destruct (Z.land v m =? Z.land e m); cbn; extras_done.
  - extras_start.
    destruct (p _ (0, env w)) as [[b|[cls what|x]|why] [rv e']]; cbn.
    2-4: extras_done.
    destruct b; cbn; extras_done.
Qed.
End Extras.

(** ** A poll that does not succeed *)

Section GivesUp.
Context {Σ : Type} `{Clock Σ}.
Variable p : BasicPoller.t.
Variable fn : M Σ bool.
Variable P : Σ -> Prop.
Hypothesis sleep_at_least : forall d s, now s + Z.max 0 d <= now (sleep_for d s).
Hypothesis wait_positive : 0 < BasicPoller.wait_delay p.
Hypothesis fn_false :
  forall s0, P s0 ->
    exists s1, fn s0 = (Returned false, s1) /\ now s0 <= now s1 /\
               P (sleep_for (BasicPoller.wait_delay p) s1).

Lemma poll_gives_up fuel start s :
  P s ->
  (1 <= fuel)%nat ->
  start + BasicPoller.timeout p - now s <= Z.of_nat fuel * BasicPoller.wait_delay p ->
  exists s0 s1,
    P s0 /\ fn s0 = (Returned false, s1) /\
    BasicPoller.poll p fuel start fn s
    = (Returned false, sleep_for (BasicPoller.wait_delay p) s1) /\
    start + BasicPoller.timeout p <= now (sleep_for (BasicPoller.wait_delay p) s1) /\
    now s + BasicPoller.wait_delay p <= now (sleep_for (BasicPoller.wait_delay p) s1) /\
    ((forall d s, now (sleep_for d s) = now s + Z.max 0 d) ->
     (forall s0, P s0 -> now (snd (fn s0)) = now s0) ->
     exists k : nat,
       (1 <= k <= fuel)%nat /\
       now (sleep_for (BasicPoller.wait_delay p) s1)
       = now s + Z.of_nat k * BasicPoller.wait_delay p /\
       ((1 < k)%nat ->
        now s + (Z.of_nat k - 1) * BasicPoller.wait_delay p < start + BasicPoller.timeout p)).
Proof.
  revert s. induction fuel as [|fuel IH]; intros s HP Hfuel Hbudget; [lia|].
  destruct (fn_false s HP) as (s1 & Hfn & Hmono & HP').
  cbn [BasicPoller.poll]. unfold bind at 1. rewrite Hfn. cbn [fst snd].
  unfold bind, modify, gets. cbn [fst snd].
  pose proof (sleep_at_least (BasicPoller.wait_delay p) s1) as Hnow.
  rewrite Z.max_r in Hnow by lia.
  destruct (Z.ltb_spec (now (sleep_for (BasicPoller.wait_delay p) s1))
              (start + BasicPoller.timeout p)) as [Hlt|Hge].
  - destruct (IH (sleep_for (BasicPoller.wait_delay p) s1) HP') as
      (s0' & s1' & HP0 & Hfn' & Hrun & Hend & Hstep & Hexact); [nia|nia|].
    exists s0', s1'. split; [exact HP0|]. split; [exact Hfn'|]. split; [exact Hrun|].
    split; [exact Hend|]. split; [lia|].
    intros Hsleep Hzero. destruct (Hexact Hsleep Hzero) as (k & Hk & Hk_now & Hk_prev).
    pose proof (Hzero s HP) as Hz. rewrite Hfn in Hz. cbn [snd] in Hz.
    pose proof (Hsleep (BasicPoller.wait_delay p) s1) as Hnow'.
    rewrite Z.max_r in Hnow' by lia.
    exists (S k). split; [lia|]. split; [nia|]. intros _.
    destruct (decide (1 < k)%nat) as [Hk1|Hk1]; [specialize (Hk_prev Hk1); nia|].
    assert (k = 1%nat) by lia. subst k. nia.
  - exists s, s1. split; [exact HP|]. split; [exact Hfn|]. split; [reflexivity|].
    split; [lia|]. split; [lia|].
    intros Hsleep Hzero. pose proof (Hzero s HP) as Hz. rewrite Hfn in Hz. cbn [snd] in Hz.
    pose proof (Hsleep (BasicPoller.wait_delay p) s1) as Hnow'.
    rewrite Z.max_r in Hnow' by lia.
    exists 1%nat. split; [lia|]. split; [lia|]. lia.
Qed.
End GivesUp.

(** X10: a [BasicPoller] with a positive recheck delay whose predicate
    keeps yielding false, on a clock on which [sleep_for] blocks for at
    least the duration and with a deadline that fits the clock's ticks,
    returns false within [fuel] evaluations when
    [fuel * wait_delay >= timeout], and not before the longer of the
    timeout and one recheck delay has elapsed since the start timestamp.
    If sleeps last exactly as long as asked and the predicate takes no
    time, it returns after a whole number [k] of recheck delays, the least
    [k >= 1] with [k * wait_delay >= timeout]. *)
Theorem BasicPoller_gives_up
    {Σ : Type} `{Clock Σ} (p : BasicPoller.t) (fn : M Σ bool) (fuel : nat) (s : Σ) :
  (forall d s, now s + Z.max 0 d <= now (sleep_for d s)) ->
  0 < BasicPoller.wait_delay p ->
  (forall s0, exists s1, fn s0 = (Returned false, s1) /\ now s0 <= now s1) ->
  (1 <= fuel)%nat ->
  BasicPoller.timeout p <= Z.of_nat fuel * BasicPoller.wait_delay p ->
  let start := now (sleep_for (BasicPoller.initial_delay p) s) in
  deadline_fits start (BasicPoller.timeout p) ->
  exists s',
    BasicPoller.call p fuel fn s = (Returned false, s') /\
    now s + Z.max 0 (BasicPoller.initial_delay p) <= start /\
    start + Z.max (BasicPoller.timeout p) (BasicPoller.wait_delay p) <= now s' /\
    ((forall d s, now (sleep_for d s) = now s + Z.max 0 d) ->
     (forall s0, now (snd (fn s0)) = now s0) ->
     exists k : nat,
       (1 <= k <= fuel)%nat /\
       now s' = now s + Z.max 0 (BasicPoller.initial_delay p)
                + Z.of_nat k * BasicPoller.wait_delay p /\
       BasicPoller.timeout p <= Z.of_nat k * BasicPoller.wait_delay p /\
       ((1 < k)%nat -> (Z.of_nat k - 1) * BasicPoller.wait_delay p < BasicPoller.timeout p)).
Proof.
  intros Hsleep Hwd Hfn Hfuel Hbudget start _.
  unfold BasicPoller.call, bind, modify, gets. cbn [fst snd]. fold start.
  pose proof (Hsleep (BasicPoller.initial_delay p) s) as Hstart. fold start in Hstart.
  assert (Hfn' : forall s0, True ->
            exists s1, fn s0 = (Returned false, s1) /\ now s0 <= now s1 /\ True).
  { intros s0 _. destruct (Hfn s0) as (s1 & E & Hm). by exists s1. }
  destruct (poll_gives_up p fn (fun _ => True) Hsleep Hwd Hfn'
              fuel start (sleep_for (BasicPoller.initial_delay p) s) I Hfuel)
    as (s0 & s1 & _ & _ & Hrun & Hend & Hstep & Hexact); [fold start; lia|].
  fold start in Hstep.
  exists (sleep_for (BasicPoller.wait_delay p) s1). split; [exact Hrun|].
  split; [exact Hstart|]. split; [lia|].
  intros Hexact_sleep Hzero.
  destruct (Hexact Hexact_sleep (fun s0 _ => Hzero s0)) as (k & Hk & Hk_now & Hk_prev).
  fold start in Hk_now, Hk_prev.
  pose proof (Hexact_sleep (BasicPoller.initial_delay p) s) as Hstart'. fold start in Hstart'.
  exists k. split; [exact Hk|]. split; [lia|]. split; [lia|].
  intros Hk1. specialize (Hk_prev Hk1). lia.
Qed.

Lemma BasicPoller_gives_up_witness :
  exists s',
    BasicPoller.call (BasicPoller.Build 100 10 50) 5 never (MkEnv tt 0) = (Returned false, s') /\
    100 + 50 <= now s'.
Proof.
  destruct (BasicPoller_gives_up (BasicPoller.Build 100 10 50) never 5 (MkEnv tt 0))
    as (s' & Hrun & _ & Hend & _).
  - intros d s. simpl. lia.
  - simpl. lia.
  - intros s0. exists s0. split; [reflexivity|lia].
  - lia.
  - simpl. lia.
  - unfold deadline_fits, ticks_per_microsecond. simpl. lia.
  - exists s'. split; [exact Hrun|]. simpl in Hend. exact Hend.
Defined.

(** ** Polling the dummy target *)

Lemma pollRead_env
    {I St : Type} (aw dw : Z) (interposer : option (IFluentRegisterTargetInterposer.t I))
    (target : Target.t St) (poller : CPoller St) addr expected mask msg (w : World I St) :
  env (snd (FluentRegisterTarget.pollRead aw dw interposer target poller addr expected mask msg w))
  = snd (snd (poller (FluentRegisterTarget.poll_check target addr mask (Z.land expected mask))
                (0, env w))).
Proof.
  unfold_ops. unfold_monad. destruct interposer; cbn.
  all: destruct (poller _ (0, env w)) as [[[]|[]|] [rv e']]; reflexivity.
Qed.

Lemma dummy_poll_check aw dw ndebug name addr mask expected_val rv (e : Env (gmap Z Z)) :
  exists regs',
    FluentRegisterTarget.poll_check (SimpleDummyRegisterTarget.make aw dw ndebug name)
      addr mask expected_val (rv, e)
    = (Returned (Z.land (register_value (tgt e) addr) mask =? expected_val),
       (register_value (tgt e) addr, MkEnv regs' (clock e))) /\
    same_registers (tgt e) regs'.
Proof.
  destruct (dummy_read_run addr (tgt e)) as (regs' & Hread & Hsame & _).
  exists regs'. split; [|exact Hsame].
  rewrite poll_check_run.
  cbn [Target.read SimpleDummyRegisterTarget.make IRegisterTarget.derive].
  by rewrite Hread.
Qed.



(** ** The overloads that return what was read *)

Lemma single_reads_return {St} (read : Z -> M St Z) (addrs : list Z) from out st :
  (forall a s, exists v s', read a s = (Returned v, s')) ->
  (from + length addrs <= length out)%nat ->
  exists out' st',
    single_reads read from addrs (out, st) = (Returned tt, (out', st')) /\
    length out' = length out.
Proof.
  intros Hread. revert from out st. induction addrs as [|a addrs IH]; intros from out st Hfit.
  - by exists out, st.
  - cbn [length] in Hfit. destruct (Hread a st) as (v & st1 & Hv).
    destruct (IH (S from) (<[from := v]> out) st1) as (out' & st' & Hrun & Hlen).
    { rewrite length_insert. lia. }
    exists out', st'. split; [|by rewrite Hlen, length_insert].
    cbn [single_reads]. unfold bind, beside, zoom, span_store. cbn [fst snd].
    rewrite Hv. cbn [fst snd].
    destruct (Nat.ltb_spec from (length out)) as [_|Hge]; [|lia]. exact Hrun.
Qed.

Section Overloads.
Context {I St : Type}.
Variables (aw dw : Z).
Variable target : Target.t St.

Lemma fold_left_env {A} (f : A -> I -> I) (xs : list A) (w : World I St) :
  exists i',
    fold_left (fun w x => MkWorld (f x (ipos w)) (env w)) xs w = MkWorld i' (env w).
Proof.
  revert w. induction xs as [|x xs IH]; intros w.
  - exists (ipos w). by destruct w.
  - cbn [fold_left]. destruct (IH (MkWorld (f x (ipos w)) (env w))) as (i' & ->). by exists i'.
Qed.

Lemma opExtra_span_any interposer data (w : World I St) :
  exists i',
    FluentRegisterTarget.opExtra_span dw interposer target data w
    = (Returned tt, MkWorld i' (env w)).
Proof.
  unfold FluentRegisterTarget.opExtra_span. destruct interposer as [ip|].
  - rewrite (for_each_modify (fun d w =>
       MkWorld (IFluentRegisterTargetInterposer.opExtra ip "FluentRegisterTarget"
                  (Target.getName target) (fmt_hex dw d) (ipos w)) (env w))).
    destruct (fold_left_env (fun d => IFluentRegisterTargetInterposer.opExtra ip
                "FluentRegisterTarget" (Target.getName target) (fmt_hex dw d)) data w)
      as (i' & ->).
    by exists i'.
  - exists (ipos w). by destruct w.
Qed.

Lemma opExtra_addresses_any interposer addrs (w : World I St) :
  exists i',
    FluentRegisterTarget.opExtra_addresses aw interposer target addrs w
    = (Returned tt, MkWorld i' (env w)).
Proof.
  unfold FluentRegisterTarget.opExtra_addresses. destruct interposer as [ip|].
  - rewrite (for_each_modify (fun d w =>
       MkWorld (IFluentRegisterTargetInterposer.opExtra ip "FluentRegisterTarget"
                  (Target.getName target) (fmt_hex aw d) (ipos w)) (env w))).
    destruct (fold_left_env (fun d => IFluentRegisterTargetInterposer.opExtra ip
                "FluentRegisterTarget" (Target.getName target) (fmt_hex aw d)) addrs w)
      as (i' & ->).
    by exists i'.
  - exists (ipos w). by destruct w.
Qed.

(** A span read whose call on the target returns hands the caller the span
    the target left. *)
Lemma seqRead_returns interposer start_addr increment msg out (w : World I St) out' st' :
  Target.seqRead target start_addr increment (out, tgt (env w)) = (Returned tt, (out', st')) ->
  exists w',
    FluentRegisterTarget.seqRead aw dw interposer target start_addr increment msg (out, w)
    = (Returned tt, (out', w')).
Proof.
  intros Hcall. unfold_ops. unfold_monad. destruct interposer as [ip|]; cbn; rewrite Hcall; cbn.
  all: match goal with |- context [FluentRegisterTarget.opExtra_span ?d ?i ?t ?data ?w0] =>
    destruct (opExtra_span_any i data w0) as (i' & ->) end.
  all: cbn; eexists; reflexivity.
Qed.

Lemma fifoRead_returns interposer fifo_addr msg out (w : World I St) out' st' :
  Target.fifoRead target fifo_addr (out, tgt (env w)) = (Returned tt, (out', st')) ->
  exists w',
    FluentRegisterTarget.fifoRead aw dw interposer target fifo_addr msg (out, w)
    = (Returned tt, (out', w')).
Proof.
  intros Hcall. unfold_ops. unfold_monad. destruct interposer as [ip|]; cbn; rewrite Hcall; cbn.
  all: match goal with |- context [FluentRegisterTarget.opExtra_span ?d ?i ?t ?data ?w0] =>
    destruct (opExtra_span_any i data w0) as (i' & ->) end.
  all: cbn; eexists; reflexivity.
Qed.

Lemma compRead_returns interposer addresses msg out (w : World I St) out' st' :
  Target.compRead target addresses (out, tgt (env w)) = (Returned tt, (out', st')) ->
  exists w',
    FluentRegisterTarget.compRead aw dw interposer target addresses msg (out, w)
    = (Returned tt, (out', w')).
Proof.
  intros Hcall. unfold_ops. unfold_monad. destruct interposer as [ip|]; cbn.
  all: match goal with |- context [FluentRegisterTarget.opExtra_addresses ?a ?i ?t ?data ?w0] =>
    destruct (opExtra_addresses_any i data w0) as (i0 & ->) end.
  all: cbn; rewrite Hcall; cbn.
  all: match goal with |- context [FluentRegisterTarget.opExtra_span ?d ?i ?t ?data ?w0] =>
    destruct (opExtra_span_any i data w0) as (i' & ->) end.
  all: cbn; eexists; reflexivity.
Qed.


Lemma read_value_returns interposer addr msg (w : World I St) v st' :
  Target.read target addr (tgt (env w)) = (Returned v, st') ->
  exists w',
    forall uninit,
      FluentRegisterTarget.read_value aw dw interposer target uninit addr msg w
      = (Returned v, w').
Proof.
  intros Hcall. unfold FluentRegisterTarget.read_value. unfold_ops. unfold_monad.
  destruct interposer as [ip|]; cbn; rewrite Hcall; cbn; eexists; intros uninit; reflexivity.
Qed.
End Overloads.

(** X12: the overloads that return what was read, on a target that inherits
    the batch operations and whose reads return.  [seqRead] and [fifoRead]
    with a count return a vector of that many elements; [compRead] with
    addresses alone returns one element per address, and the size
    assertion of the base class does not fire in a build without NDEBUG
    either; [read] returns the value the target read, and nothing of the
    call depends on the indeterminate initial value of its local variable. *)
Theorem read_overloads_return_what_was_read
    {I St : Type} (aw dw : Z) (ndebug : bool)
    (write : Z -> Z -> M St unit) (read : Z -> M St Z) (name domain : string)
    (interposer : option (IFluentRegisterTargetInterposer.t I))
    (msg : string) (w : World I St) :
  (forall a s, exists v s', read a s = (Returned v, s')) ->
  let T := IRegisterTarget.derive aw dw ndebug write read name domain in
  (forall start_addr count increment,
     exists vs w',
       FluentRegisterTarget.seqRead_count aw dw interposer T start_addr count increment msg w
       = (Returned vs, w') /\ length vs = count) /\
  (forall fifo_addr count,
     exists vs w',
       FluentRegisterTarget.fifoRead_count aw dw interposer T fifo_addr count msg w
       = (Returned vs, w') /\ length vs = count) /\
  (forall addresses,
     exists vs w',
       FluentRegisterTarget.compRead_values aw dw interposer T addresses msg w
       = (Returned vs, w') /\ length vs = length addresses) /\
  (forall addr,
     exists v w',
       fst (read addr (tgt (env w))) = Returned v /\
       forall uninit,
         FluentRegisterTarget.read_value aw dw interposer T uninit addr msg w
         = (Returned v, w')).
Proof.
  intros Hread T. split; [|split; [|split]].
  - intros start_addr count increment.
    destruct (single_reads_return read
                (map (IRegisterTarget.seq_address aw start_addr increment) (seq 0 count))
                0 (replicate count 0) (tgt (env w)) Hread) as (out' & st' & Hrun & Hlen).
    { rewrite length_map, length_seq, length_replicate. lia. }
    destruct (seqRead_returns aw dw T interposer start_addr increment msg
                (replicate count 0) w out' st') as (w' & Hop).
    { subst T. cbn [Target.seqRead IRegisterTarget.derive].
      unfold IRegisterTarget.seqRead. cbn [fst]. rewrite length_replicate.
      etransitivity; [exact (for_from_single_reads read _ _ 0 _)|]. exact Hrun. }
    exists out', w'. split; [|by rewrite Hlen, length_replicate].
    unfold FluentRegisterTarget.seqRead_count, bind, with_local, ret. by rewrite Hop.
  - intros fifo_addr count.
    destruct (single_reads_return read (map (fun _ => fifo_addr) (seq 0 count))
                0 (replicate count 0) (tgt (env w)) Hread) as (out' & st' & Hrun & Hlen).
    { rewrite length_map, length_seq, length_replicate. lia. }
    destruct (fifoRead_returns aw dw T interposer fifo_addr msg
                (replicate count 0) w out' st') as (w' & Hop).
    { subst T. cbn [Target.fifoRead IRegisterTarget.derive].
      unfold IRegisterTarget.fifoRead. cbn [fst]. rewrite length_replicate.
      etransitivity; [exact (for_from_single_reads read (fun _ => fifo_addr) _ 0 _)|].
      exact Hrun. }
    exists out', w'. split; [|by rewrite Hlen, length_replicate].
    unfold FluentRegisterTarget.fifoRead_count, bind, with_local, ret. by rewrite Hop.
  - intros addresses.
    destruct (single_reads_return read addresses
                0 (replicate (length addresses) 0) (tgt (env w)) Hread)
      as (out' & st' & Hrun & Hlen).
    { rewrite length_replicate. lia. }
    destruct (compRead_returns aw dw T interposer addresses msg
                (replicate (length addresses) 0) w out' st') as (w' & Hop).
    { subst T. cbn [Target.compRead IRegisterTarget.derive].
      unfold IRegisterTarget.compRead. cbn [fst].
      rewrite length_replicate, Nat.eqb_refl. cbn [negb]. rewrite andb_false_r.
      rewrite compRead_loop_single_reads. exact Hrun. }
    exists out', w'. split; [|by rewrite Hlen, length_replicate].
    unfold FluentRegisterTarget.compRead_values, bind, with_local, ret. by rewrite Hop.
  - intros addr. destruct (Hread addr (tgt (env w))) as (v & st' & Hv).
    destruct (read_value_returns aw dw T interposer addr msg w v st') as (w' & Hop).
    { exact Hv. }
    exists v, w'. split; [by rewrite Hv | exact Hop].
Qed.

Lemma read_overloads_return_what_was_read_witness :
  exists vs w',
    FluentRegisterTarget.compRead_values 32 32
      (@None (IFluentRegisterTargetInterposer.t unit))
      (IRegisterTarget.derive 32 32 false SimpleDummyRegisterTarget.write
         SimpleDummyRegisterTarget.read "dummy" "IRegisterTarget")
      [4; 8] "" (fresh tt ∅)
    = (Returned vs, w') /\ length vs = length [4; 8].
Proof.
  apply (read_overloads_return_what_was_read 32 32 false SimpleDummyRegisterTarget.write
           SimpleDummyRegisterTarget.read "dummy" "IRegisterTarget"
           (@None (IFluentRegisterTargetInterposer.t unit)) "" (fresh tt ∅)).
  intros a s. unfold SimpleDummyRegisterTarget.read.
  destruct (s !! a); eexists _, _; reflexivity.
Defined.

(** ** Chunked sequential writes *)

Lemma single_writes_app {St} (write : Z -> Z -> M St unit) (xs ys : list (Z * Z)) s :
  single_writes write (xs ++ ys) s
  = (single_writes write xs ;; single_writes write ys) s.
Proof.
  revert s. induction xs as [|x xs IH]; intros s.
  - cbn [app single_writes]. reflexivity.
  - cbn [app single_writes]. unfold bind.
    destruct (write (fst x) (snd x) s) as [[[]|e|why] s']; [|reflexivity..].
    rewrite IH. reflexivity.
Qed.

Lemma element_address_shift aw start_addr increment offset i :
  valid_width aw ->
  element_address aw (element_address aw start_addr increment offset) increment i
  = element_address aw start_addr increment (offset + i).
Proof.
  intros Haw. unfold element_address.
  assert (0 < 2 ^ aw) by (destruct Haw as [->|[->|[->| ->]]]; lia).
  rewrite Zplus_mod_idemp_l. f_equal. lia.
Qed.

Lemma chunkify_loop_single_writes {St} (write : Z -> Z -> M St unit)
    (addr : nat -> Z) (buffer : list Z) (max_chunk_size : nat) :
  (0 < max_chunk_size)%nat ->
  forall fuel pos s,
    (pos <= length buffer)%nat ->
    (length buffer - pos < fuel)%nat ->
    chunkify_loop fuel buffer max_chunk_size
      (fun chunk offset =>
         single_writes write (imap (fun i d => (addr (offset + i)%nat, d)) chunk)) pos s
    = single_writes write (imap (fun i d => (addr (pos + i)%nat, d)) (drop pos buffer)) s.
Proof.
  intros Hmax. induction fuel as [|fuel IH]; intros pos s Hpos Hfuel; [lia|].
  cbn [chunkify_loop]. destruct (Nat.ltb_spec pos (length buffer)) as [Hlt|Hge].
  - set (n := Nat.min max_chunk_size (length buffer - pos)).
    assert (Hn : (0 < n)%nat) by (unfold n; lia).
    assert (Hn' : (pos + n <= length buffer)%nat) by (unfold n; lia).
    assert (Hsplit : drop pos buffer = subspan buffer pos n ++ drop (pos + n) buffer).
    { unfold subspan. by rewrite <- drop_drop, take_drop. }
    assert (Hlen : length (subspan buffer pos n) = n).
    { unfold subspan. rewrite length_take, length_drop. lia. }
    rewrite Hsplit. rewrite imap_app, single_writes_app. unfold bind.
    destruct (single_writes write _ s) as [[[]|e|why] s']; [|reflexivity..].
    rewrite IH by lia. f_equal. apply imap_ext. intros i x _. cbn. rewrite Hlen.
    do 2 f_equal. lia.
  - rewrite drop_ge by lia. reflexivity.
Qed.

Lemma chunkify_ext {T Σ} (buffer : list T) (max_chunk_size : nat)
    (fn fn' : list T -> nat -> M Σ unit) :
  (forall chunk offset s,
      (length chunk <= max_chunk_size)%nat -> fn chunk offset s = fn' chunk offset s) ->
  forall fuel pos s,
    chunkify_loop fuel buffer max_chunk_size fn pos s
    = chunkify_loop fuel buffer max_chunk_size fn' pos s.
Proof.
  intros Hfn. induction fuel as [|fuel IH]; intros pos s; [reflexivity|].
  cbn [chunkify_loop]. destruct (pos <? length buffer)%nat; [|reflexivity].
  unfold bind. rewrite Hfn.
  - destruct (fn' _ pos s) as [[[]|e|why] s']; [apply IH|reflexivity..].
  - unfold subspan. rewrite length_take. lia.
Qed.

(** X13: the README's subclass that chunks a sequential write into pieces
    of at most 10 elements, each written from
    [start_addr + increment * chunk_offset], does what the base class's
    [seqWrite] does, for every increment and from every state, provided
    the lower-level call treats a piece of at most 10 elements with
    increment 4 as the base class would. *)
Theorem chunked_seqWrite_refines_base
    {St : Type} (aw : Z) (write : Z -> Z -> M St unit)
    (lower_write : Z -> list Z -> Z -> M St unit)
    (fuel : nat) (start_addr : Z) (data : list Z) (increment : Z) (st : St) :
  valid_width aw ->
  (forall a chunk s,
      (length chunk <= 10)%nat ->
      lower_write a chunk 4 s = IRegisterTarget.seqWrite aw write a chunk 4 s) ->
  (length data < fuel)%nat ->
  ChunkingSubclass.seqWrite aw write lower_write fuel start_addr data increment st
  = IRegisterTarget.seqWrite aw write start_addr data increment st.
Proof.
  intros Haw Hlower Hfuel. unfold ChunkingSubclass.seqWrite.
  destruct (Z.eqb_spec increment 4) as [->|Hne]; [|reflexivity]. cbn [negb].
  unfold chunkify.
  rewrite (chunkify_ext data 10 _
             (fun chunk offset =>
                single_writes write
                  (imap (fun i d => (element_address aw start_addr 4 (offset + i), d)) chunk))).
  - rewrite chunkify_loop_single_writes by lia.
    rewrite drop_0. by rewrite seqWrite_single_writes.
  - intros chunk offset s Hlen. rewrite (Hlower _ _ _ Hlen).
    rewrite seqWrite_single_writes by done. f_equal. apply imap_ext. intros i x _. cbn.
    f_equal.
    change (wrap aw (wrap size_t_bits (start_addr + wrap size_t_bits (4 * Z.of_nat offset))))
      with (IRegisterTarget.seq_address aw start_addr 4 offset).
    rewrite seq_address_spec by done. by apply element_address_shift.
Qed.

Lemma chunked_seqWrite_refines_base_witness :
  ChunkingSubclass.seqWrite 32 SimpleDummyRegisterTarget.write
    (IRegisterTarget.seqWrite 32 SimpleDummyRegisterTarget.write)
    13 0x100 [1; 2; 3; 4; 5; 6; 7; 8; 9; 10; 11; 12] 4 ∅
  = IRegisterTarget.seqWrite 32 SimpleDummyRegisterTarget.write
      0x100 [1; 2; 3; 4; 5; 6; 7; 8; 9; 10; 11; 12] 4 ∅.
Proof.
  apply (chunked_seqWrite_refines_base 32 SimpleDummyRegisterTarget.write
           (IRegisterTarget.seqWrite 32 SimpleDummyRegisterTarget.write)).
  - right; right; left; reflexivity.
  - reflexivity.
  - simpl. lia.
Defined.

(** ** The calls chunkify makes *)

Lemma chunk_count_spec (n max_chunk_size j : nat) :
  (0 < max_chunk_size)%nat ->
  (j * max_chunk_size < n)%nat <-> (j < chunk_count n max_chunk_size)%nat.
Proof.
  intros Hmax. unfold chunk_count.
  pose proof (Nat.div_mod_eq (n + max_chunk_size - 1) max_chunk_size) as Hdm.
  pose proof (Nat.mod_upper_bound (n + max_chunk_size - 1) max_chunk_size) as Hub.
  set (k := ((n + max_chunk_size - 1) / max_chunk_size)%nat) in *.
  set (r := ((n + max_chunk_size - 1) mod max_chunk_size)%nat) in *.
  split; intros Hj; nia.
Qed.

Lemma chunkify_loop_chunks {T} (buffer : list T) (max_chunk_size : nat) :
  (0 < max_chunk_size)%nat ->
  forall fuel j log,
    (chunk_count (length buffer) max_chunk_size - j < fuel)%nat ->
    chunkify_loop fuel buffer max_chunk_size record_chunk
      (Nat.min (j * max_chunk_size) (length buffer)) log
    = (Returned tt,
       log ++ map (nth_chunk buffer max_chunk_size)
                (seq j (chunk_count (length buffer) max_chunk_size - j))).
Proof.
  intros Hmax. induction fuel as [|fuel IH]; intros j log Hfuel; [lia|].
  pose proof (chunk_count_spec (length buffer) max_chunk_size j Hmax) as Hspec.
  cbn [chunkify_loop].
  destruct (Nat.ltb_spec (Nat.min (j * max_chunk_size) (length buffer)) (length buffer))
    as [Hlt|Hge].
  - assert (Hj : (j * max_chunk_size < length buffer)%nat) by lia.
    apply Hspec in Hj as Hjk.
    rewrite Nat.min_l by lia.
    unfold record_chunk at 1. rewrite bind_modify.
    replace (j * max_chunk_size + Nat.min max_chunk_size (length buffer - j * max_chunk_size))%nat
      with (Nat.min (S j * max_chunk_size) (length buffer)) by lia.
    rewrite IH by lia.
    replace (chunk_count (length buffer) max_chunk_size - j)%nat
      with (S (chunk_count (length buffer) max_chunk_size - S j)) by lia.
    cbn [seq map]. rewrite <- app_assoc. cbn [app]. do 3 f_equal.
    unfold nth_chunk, subspan. f_equal.
    destruct (Nat.min_spec max_chunk_size (length buffer - j * max_chunk_size))
      as [[_ ->]|[Hle ->]]; [reflexivity|].
    rewrite !take_ge by (rewrite length_drop; lia). reflexivity.
  - assert (Hk : (chunk_count (length buffer) max_chunk_size - j = 0)%nat).
    { destruct (decide (j < chunk_count (length buffer) max_chunk_size)%nat) as [Hjk|]; [|lia].
      apply Hspec in Hjk. lia. }
    rewrite Hk. cbn [seq map]. by rewrite app_nil_r.
Qed.

(** X14: for a chunk size greater than zero, [chunkify] calls its callback
    exactly [ceil(size / max_chunk_size)] times; the call with index [i]
    receives the elements from [i * max_chunk_size] up to the next
    multiple of the chunk size or the end of the buffer, and the offset
    [i * max_chunk_size].  One more test of the loop condition than there
    are chunks ends the loop. *)
Theorem chunkify_calls {T} (buffer : list T) (max_chunk_size fuel : nat) :
  (0 < max_chunk_size)%nat ->
  (chunk_count (length buffer) max_chunk_size < fuel)%nat ->
  chunkify fuel buffer max_chunk_size record_chunk []
  = (Returned tt,
     map (nth_chunk buffer max_chunk_size)
       (seq 0 (chunk_count (length buffer) max_chunk_size))).
Proof.
  intros Hmax Hfuel. unfold chunkify.
  pose proof (chunkify_loop_chunks buffer max_chunk_size Hmax fuel 0 []) as H.
  rewrite Nat.sub_0_r in H. cbn [Nat.mul Nat.min app] in H. by apply H.
Qed.

Lemma chunkify_calls_witness :
  chunkify 4 [1; 2; 3; 4; 5] 2 record_chunk []
  = (Returned tt, [([1; 2], 0%nat); ([3; 4], 2%nat); ([5], 4%nat)]).
Proof.
  apply (chunkify_calls [1; 2; 3; 4; 5] 2 4); unfold chunk_count; simpl; lia.
Defined.

(** ** Composite and FIFO accesses on a logging target *)

Lemma fifoWrite_single_writes {St} (write : Z -> Z -> M St unit) fifo_addr data s :
  IRegisterTarget.fifoWrite write fifo_addr data s
  = single_writes write (map (fun d => (fifo_addr, d)) data) s.
Proof.
  unfold IRegisterTarget.fifoWrite. revert s.
  induction data as [|d data IH]; intros s; [reflexivity|].
  cbn [for_each map single_writes fst snd]. apply bind_ext. intros _ s'. apply IH.
Qed.

(** X15: on a target that logs its accesses, the base class's [compWrite]
    issues the writes of its pairs in order and [fifoWrite] the writes of
    its data, all to the FIFO address, in order: a prefix of them if a
    write fails, all of them if the call returns, and nothing else.
    [compRead] on spans of equal size issues the reads of its addresses in
    order, and [fifoRead] one read of the FIFO address per element of the
    span, likewise. *)
Theorem comp_fifo_accesses_in_order
    {St : Type} (ndebug : bool) (write : Z -> Z -> M St unit) (read : Z -> M St Z)
    (log : list Access) (st : St) :
  (forall addr_data,
     let run := IRegisterTarget.compWrite (Recording.rwrite write) addr_data (log, st) in
     exists k, (k <= length addr_data)%nat /\
       fst (snd run) = log ++ map write_of (take k addr_data) /\
       (fst run = Returned tt -> k = length addr_data)) /\
  (forall fifo_addr data,
     let run := IRegisterTarget.fifoWrite (Recording.rwrite write) fifo_addr data (log, st) in
     exists k, (k <= length data)%nat /\
       fst (snd run) = log ++ map (AWrite fifo_addr) (take k data) /\
       (fst run = Returned tt -> k = length data)) /\
  (forall addresses out_data,
     length addresses = length out_data ->
     let run := IRegisterTarget.compRead ndebug (Recording.rread read) addresses
                  (out_data, (log, st)) in
     exists k, (k <= length addresses)%nat /\
       fst (snd (snd run)) = log ++ map ARead (take k addresses) /\
       (fst run = Returned tt -> k = length addresses)) /\
  (forall fifo_addr out_data,
     let run := IRegisterTarget.fifoRead (Recording.rread read) fifo_addr
                  (out_data, (log, st)) in
     exists k, (k <= length out_data)%nat /\
       fst (snd (snd run)) = log ++ replicate k (ARead fifo_addr) /\
       (fst run = Returned tt -> k = length out_data)).
Proof.
  split; [|split; [|split]].
  - intros addr_data run. subst run. unfold IRegisterTarget.compWrite.
    rewrite for_each_single_writes.
    apply (single_writes_recorded write addr_data log st).
  - intros fifo_addr data run. subst run. rewrite fifoWrite_single_writes.
    destruct (single_writes_recorded write (map (fun d => (fifo_addr, d)) data) log st)
      as (k & Hk & Hlog & Hret).
    rewrite length_map in Hk, Hret.
    exists k. split; [exact Hk|]. split; [|exact Hret].
    rewrite Hlog. f_equal. rewrite firstn_map, map_map. reflexivity.
  - intros addresses out_data Hlen run. subst run.
    assert (Heq : IRegisterTarget.compRead ndebug (Recording.rread read) addresses
                    (out_data, (log, st))
                  = single_reads (Recording.rread read) 0 addresses (out_data, (log, st))).
    { unfold IRegisterTarget.compRead. cbn [fst].
      replace (length addresses =? length out_data)%nat with true
        by (symmetry; apply Nat.eqb_eq; exact Hlen).
      cbn [negb]. rewrite andb_false_r. apply compRead_loop_single_reads. }
    rewrite Heq.
    destruct (single_reads_recorded read addresses 0 out_data log st)
      as (k & Hk & Hlog & Hret).
    exists k. split; [exact Hk|]. split; [|exact Hret].
    rewrite Hlog. reflexivity.
  - intros fifo_addr out_data run. subst run.
    unfold IRegisterTarget.fifoRead. cbn [fst].
    assert (Heq : for_from 0 (length out_data)
                    (fun i => v <- beside (Recording.rread read fifo_addr) ;; span_store i v)
                    (out_data, (log, st))
                  = single_reads (Recording.rread read) 0
                      (map (fun _ => fifo_addr) (seq 0 (length out_data)))
                      (out_data, (log, st))).
    { exact (for_from_single_reads (Recording.rread read) (fun _ => fifo_addr) _ 0 _). }
    rewrite Heq.
    destruct (single_reads_recorded read
                (map (fun _ => fifo_addr) (seq 0 (length out_data))) 0 out_data log st)
      as (k & Hk & Hlog & Hret).
    rewrite length_map, length_seq in Hk, Hret.
    exists k. split; [exact Hk|]. split; [|exact Hret].
    rewrite Hlog. f_equal. rewrite firstn_map, map_map.
    apply take_constant_map. by rewrite length_seq.
Qed.

Lemma comp_fifo_accesses_in_order_witness :
  exists k, (k <= length [4; 8])%nat /\
    fst (snd (snd (IRegisterTarget.compRead false
                     (Recording.rread SimpleDummyRegisterTarget.read) [4; 8]
                     ([0; 0], ([], ∅)))))
    = [] ++ map ARead (take k [4; 8]) /\
    (fst (IRegisterTarget.compRead false
            (Recording.rread SimpleDummyRegisterTarget.read) [4; 8]
            ([0; 0], ([], ∅))) = Returned tt -> k = length [4; 8]).
Proof.
  apply (proj1 (proj2 (proj2 (comp_fifo_accesses_in_order false
           SimpleDummyRegisterTarget.write SimpleDummyRegisterTarget.read [] ∅)))
           [4; 8] [0; 0]).
  reflexivity.
Defined.

(** ** Read-modify-write on the dummy target *)

Lemma readModifyWrite_run
    {I St : Type} (aw dw : Z) (interposer : option (IFluentRegisterTargetInterposer.t I))
    (target : Target.t St) addr new_data mask msg (w : World I St) st' :
  Target.readModifyWrite target addr new_data mask (tgt (env w)) = (Returned tt, st') ->
  let run := FluentRegisterTarget.readModifyWrite aw dw interposer target
               addr new_data mask msg w in
  fst run = Returned tt /\ tgt (env (snd run)) = st' /\ clock (env (snd run)) = clock (env w).
Proof.
  intros Hcall run. subst run. unfold_ops. unfold_monad.
  destruct interposer; cbn; rewrite Hcall; cbn; by repeat split.
Qed.

(** X16: on the dummy target the wrapper's [readModifyWrite] returns and
    changes, of the register at [addr], the bits selected by [mask] only:
    afterwards the register holds a [DataType] value with the bits of
    [new_data] where [mask] is set and the bits it held before elsewhere;
    the other registers keep their values and no time passes. *)
Theorem dummy_readModifyWrite
    {I : Type} (aw dw : Z) (ndebug : bool) (name : string)
    (interposer : option (IFluentRegisterTargetInterposer.t I))
    (addr new_data mask : Z) (msg : string) (w : World I (gmap Z Z)) :
  0 <= dw ->
  let T := SimpleDummyRegisterTarget.make aw dw ndebug name in
  let run := FluentRegisterTarget.readModifyWrite aw dw interposer T
               addr new_data mask msg w in
  fst run = Returned tt /\
  merged_bits dw (register_value (tgt (env w)) addr) new_data mask
    (register_value (tgt (env (snd run))) addr) /\
  (forall a, a <> addr ->
     register_value (tgt (env (snd run))) a = register_value (tgt (env w)) a) /\
  clock (env (snd run)) = clock (env w).
Proof.
  intros Hdw T run.
  destruct (dummy_read_run addr (tgt (env w))) as (regs1 & Hread & Hsame & _).
  set (old := register_value (tgt (env w)) addr) in *.
  set (v := wrap dw (Z.lor (wrap dw (Z.land old (Z.lnot mask))) (Z.land new_data mask))).
  destruct (readModifyWrite_run aw dw interposer T addr new_data mask msg w
              (<[addr := v]> regs1)) as (Hout & Hst & Hclk).
  { subst T. cbn [Target.readModifyWrite SimpleDummyRegisterTarget.make IRegisterTarget.derive].
    unfold IRegisterTarget.readModifyWrite, bind. rewrite Hread. cbn [fst snd].
    apply dummy_write_run. }
  fold run in Hout, Hst, Hclk. rewrite Hst.
  split; [exact Hout|]. split; [|split; [|exact Hclk]].
  - rewrite dummy_write_value. destruct (decide (addr = addr)); [|done].
    by apply rmw_value_bits.
  - intros a Hne. rewrite dummy_write_value. destruct (decide (a = addr)); [done|].
    apply Hsame.
Qed.

Lemma dummy_readModifyWrite_witness :
  fst (FluentRegisterTarget.readModifyWrite 32 32
         (@None (IFluentRegisterTargetInterposer.t unit))
         (SimpleDummyRegisterTarget.make 32 32 false "dummy")
         0x10 0x0F 0x3C "" (fresh tt ∅))
  = Returned tt.
Proof.
  apply (dummy_readModifyWrite 32 32 false "dummy"
           (@None (IFluentRegisterTargetInterposer.t unit)) 0x10 0x0F 0x3C "" (fresh tt ∅)).
  lia.
Defined.
